(** * SparkyRNG ([random.hpp], namespace [minion]): a shallow embedding

    The header is embedded function by function.  Fixed-width unsigned
    integers are integers of [Z] with the wrap-around written out
    ([wrap w z = z mod 2^w]); the engine object is a record with its single
    field [state_]; code that draws from a callback threads the callback's
    state explicitly; a loop whose number of iterations is not bounded by
    its input takes a [fuel] argument, and the theorems show that enough
    fuel exists. *)

From Stdlib Require Import ZArith Lia List Bool Znumtheory.
From Stdlib Require Uint63 SpecFloat FloatOps.
From Stdlib Require Import PrimFloat.
From stdpp Require Import base list.
Import ListNotations.

Local Open Scope Z_scope.

(** ** Machine integers *)

(** Conversion of an integer to an unsigned type of [w] bits. *)
Definition wrap (w z : Z) : Z := z mod 2 ^ w.

(** Conversion of a 32-bit unsigned value to [int] (two's complement). *)
Definition to_int32 (z : Z) : Z :=
  let u := wrap 32 z in if u <? 2 ^ 31 then u else u - 2 ^ 32.

(** How a modelled function call ends.  [Returns a] is a normal return.
    [DivisionByZero] is an integer division or remainder by zero (undefined
    behaviour in C++), [AssertionFailure] a failed [assert] (the program
    aborts; builds with [NDEBUG] are not modelled), and [OutOfFuel] means the
    fuel given to a loop was used up before the loop ended. *)
Inductive outcome (A : Type) : Type :=
  | Returns (a : A)
  | DivisionByZero
  | AssertionFailure
  | OutOfFuel.
Arguments Returns {A} a.
Arguments DivisionByZero {A}.
Arguments AssertionFailure {A}.
Arguments OutOfFuel {A}.

#[global] Instance outcome_ret : MRet outcome := @Returns.
#[global] Instance outcome_bind : MBind outcome :=
  fun A B (f : A -> outcome B) (o : outcome A) =>
    match o with
    | Returns a => f a
    | DivisionByZero => DivisionByZero
    | AssertionFailure => AssertionFailure
    | OutOfFuel => OutOfFuel
    end.

(** ** [detail::Lehmer64Fast] *)

Module Lehmer64Fast.

(** [state_type] is [__uint128_t], [result_type] is [uint64_t] and
    [seed_type] is [std::array<uint32_t, 4>]. *)
Record t : Type := mk { state_ : Z }.

Definition seed_type : Type := (Z * Z * Z * Z)%type.

Definition MCG_MULT : Z := 0xda942042e4dd58b5.
Definition STYPE_BITS : Z := 8 * 16.
Definition RTYPE_BITS : Z := 8 * 8.

Definition min : Z := 0.
Definition max : Z := wrap 64 (Z.lnot 0).

(** [state_ = state | 1].  The argument is converted to [state_type]. *)
Definition SetState (e : t) (state : Z) : t :=
  mk (Z.lor (wrap STYPE_BITS state) 1).

(** [std::memcpy(&state, &seed, sizeof(seed))]: the four 32-bit words are
    laid out in increasing address order; on a little-endian target the
    first word is the least significant one. *)
Definition memcpy_seed (seed : seed_type) : Z :=
  let '(s0, s1, s2, s3) := seed in
  wrap 32 s0 + wrap 32 s1 * 2 ^ 32 + wrap 32 s2 * 2 ^ 64 + wrap 32 s3 * 2 ^ 96.

Definition Seed (e : t) (seed : seed_type) : t :=
  let state := memcpy_seed seed in
  SetState e state.

(** The constructors.  The object they initialise has no earlier state;
    [SetState] overwrites the field whatever it held. *)
Definition uninitialised : t := mk 0.
Definition default_state : Z := 0x9f57c403d06c42fc.
Definition new (state : Z) : t := SetState uninitialised state.
Definition new_default : t := new default_state.
Definition new_seed (seed : seed_type) : t := Seed uninitialised seed.

(** [state_ *= MCG_MULT] in 128-bit arithmetic. *)
Definition Advance (e : t) : t :=
  mk (wrap STYPE_BITS (state_ e * MCG_MULT)).

(** [for(size_t k=0;k<count;++k) Advance();] *)
Definition Discard (count : N) (e : t) : t := N.iter count Advance e.

Definition GetState (e : t) : Z := state_ e.

(** [operator()]: the value returned and the engine afterwards. *)
Definition call (e : t) : Z * t :=
  let e' := Advance e in
  (wrap RTYPE_BITS (Z.shiftr (state_ e') (STYPE_BITS - RTYPE_BITS)), e').

Definition eqb (lhs rhs : t) : bool := state_ lhs =? state_ rhs.
Definition neqb (lhs rhs : t) : bool := negb (eqb lhs rhs).

(** [k] successive calls of [operator()]: the outputs in order and the
    engine afterwards. *)
Fixpoint draws (k : nat) (e : t) : list Z * t :=
  match k with
  | O => ([], e)
  | S k' =>
      let '(x, e1) := call e in
      let '(xs, e2) := draws k' e1 in
      (x :: xs, e2)
  end.

End Lehmer64Fast.

(** ** [detail::random_u32], [detail::random_u32_pair] *)

Definition random_i63 (u : Z) : Z := Z.shiftr u 1.
Definition random_u32 (u : Z) : Z := wrap 32 (Z.shiftr u 32).
Definition random_u32_pair (u : Z) : Z * Z :=
  (wrap 32 u, wrap 32 (Z.shiftr u 32)).

(** ** [detail::random_u64_range] *)

(** Lines 146-152: [uint64_t t = -range;] and the two guarded reductions.
    The remainder [t %= range] is the only division of the function. *)
Definition rejection_threshold (range : Z) : outcome Z :=
  let t := wrap 64 (- range) in
  if range <=? t then
    let t := wrap 64 (t - range) in
    if range <=? t then
      if range =? 0 then DivisionByZero else Returns (wrap 64 (t mod range))
    else Returns t
  else Returns t.

Section random_u64_range.

(** The callback [get]: a state of type [S], and one call returning a
    value and the state afterwards. *)
Context {S : Type} (get : S -> Z * S).

(** [while(l < t) { x = get(); m = x * range; l = m; }]: [m], [l] and the
    callback state are the loop's variables. *)
Fixpoint redraw (fuel : nat) (range t m l : Z) (s : S) : outcome (Z * S) :=
  if l <? t then
    match fuel with
    | O => OutOfFuel
    | Datatypes.S fuel' =>
        let '(x, s') := get s in
        let x := wrap 64 x in
        let m := wrap 128 (wrap 128 x * wrap 128 range) in
        let l := wrap 64 m in
        redraw fuel' range t m l s'
    end
  else Returns (m, s).

Definition random_u64_range (fuel : nat) (range : Z) (s : S)
  : outcome (Z * S) :=
  let '(x, s) := get s in
  let x := wrap 64 x in
  let m := wrap 128 (wrap 128 x * wrap 128 range) in
  let l := wrap 64 m in
  if l <? range then
    match rejection_threshold range with
    | Returns t =>
        match redraw fuel range t m l s with
        | Returns (m, s) => Returns (wrap 64 (Z.shiftr m 64), s)
        | DivisionByZero => DivisionByZero
        | AssertionFailure => AssertionFailure
        | OutOfFuel => OutOfFuel
        end
    | DivisionByZero => DivisionByZero
    | AssertionFailure => AssertionFailure
    | OutOfFuel => OutOfFuel
    end
  else Returns (wrap 64 (Z.shiftr m 64), s).

(** The callback state after [n] calls. *)
Fixpoint after (n : nat) (s : S) : S :=
  match n with
  | O => s
  | Datatypes.S n' => after n' (snd (get s))
  end.

End random_u64_range.

(** ** [detail::hash_impl_t<INC, INIT>] *)

Section hash_impl_t.

Variables INC INIT : Z.

(** The lambda [next_num]: [w += INC; return w;]. *)
Definition next_num (w : Z) : Z * Z :=
  let w := wrap 64 (w + INC) in (w, w).

(** The inner loop over the input; [sum] and [w] are its variables. *)
Fixpoint hash_input (us : list Z) (sum w : Z) : Z * Z :=
  match us with
  | [] => (sum, w)
  | it :: rest =>
      let u := wrap 32 it in
      let '(n, w) := next_num w in
      let sum := wrap 64 (sum + wrap 64 (n * u)) in
      hash_input rest sum w
  end.

(** The outer loop over [len] output slots; [w] is carried from one slot
    to the next. *)
Fixpoint hash_slots (us : list Z) (len : nat) (w : Z) : list Z :=
  match len with
  | O => []
  | Datatypes.S len' =>
      let '(sum, w) := next_num w in
      let '(sum, w) := hash_input us sum w in
      let '(n, w) := next_num w in
      let sum := wrap 64 (sum + wrap 64 (n * 1)) in
      wrap 32 (Z.shiftr sum 32) :: hash_slots us len' w
  end.

(** [operator()(it1, it2, itA, itB)]: the values written to the [len]
    slots of the output range. *)
Definition hash_impl_t (us : list Z) (len : nat) : list Z :=
  let w := wrap 64 INIT in
  hash_slots us len w.

End hash_impl_t.

Definition hash_implA : list Z -> nat -> list Z :=
  hash_impl_t 0x9e3779b97f4a7c15 0x3423da0b87484307.
Definition hash_implB : list Z -> nat -> list Z :=
  hash_impl_t 0x9e3779b97f4a7c15 0xdf8b06c40fa44478.

(** ** The multilinear hash as the specification words it *)

Section multilinear_hash.

Variables INC INIT : Z.

(** The accumulator at its [k]-th use: the initial constant advanced [k]
    times by the increment, modulo [2^64]. *)
Definition accumulator (k : Z) : Z := wrap 64 (INIT + k * INC).

(** The sum of [accumulator_i * input_i] over the input, the first
    accumulator use being the [k]-th. *)
Fixpoint weighted_sum (k : Z) (us : list Z) : Z :=
  match us with
  | [] => 0
  | u :: rest => accumulator k * u + weighted_sum (k + 1) rest
  end.

(** Output slot [j] (from 0): one fresh accumulator value, plus the
    weighted sum, plus one more fresh value times 1; the top 32 bits of
    the 64-bit sum.  Slot [j] takes the uses [j * (n + 2) + 1] to
    [(j + 1) * (n + 2)] of the one accumulator. *)
Definition multilinear_slot (us : list Z) (j : nat) : Z :=
  let n := Z.of_nat (length us) in
  let first := Z.of_nat j * (n + 2) + 1 in
  wrap 64 (accumulator first
           + weighted_sum (first + 1) us
           + accumulator (first + n + 1) * 1) / 2 ^ 32.

Definition multilinear_hash (us : list Z) (len : nat) : list Z :=
  map (multilinear_slot us) (seq 0 len).

End multilinear_hash.

(** ** [SeedSeq<count>] *)

Module SeedSeq.

Record t : Type := mk { count : nat; state_ : list Z }.

Definition Seed (count : nat) (input : list Z) : t :=
  mk count (hash_implA input count).

Definition Generate (ss : t) (len : nat) : list Z :=
  hash_implB (state_ ss) len.

End SeedSeq.

Definition SeedSeq256 (input : list Z) : SeedSeq.t := SeedSeq.Seed 8 input.

(** ** [Random] *)

Module Random.

(** [class Random : public detail::RandomEngine]. *)
Definition t : Type := Lehmer64Fast.t.

Definition bits (r : t) : Z * t := Lehmer64Fast.call r.

Definition bits_b (b : Z) (r : t) : Z * t :=
  let '(x, r) := bits r in (Z.shiftr x (64 - b), r).

Definition u64 (r : t) : Z * t := bits r.

(** [u64(range)] passes the engine itself as the callback. *)
Definition u64_range (fuel : nat) (range : Z) (r : t) : outcome (Z * t) :=
  random_u64_range Lehmer64Fast.call fuel (wrap 64 range) r.

Definition u32 (r : t) : Z * t :=
  let '(x, r) := bits r in (random_u32 x, r).

Definition u32_pair (r : t) : (Z * Z) * t :=
  let '(x, r) := bits r in (random_u32_pair x, r).

(** [Seed(const SeedSeq<count>&)]: four generated words seed the engine. *)
Definition Seed_seq (r : t) (ss : SeedSeq.t) : t :=
  let seed := SeedSeq.Generate ss 4 in
  Lehmer64Fast.Seed r
    (nth 0 seed 0, nth 1 seed 0, nth 2 seed 0, nth 3 seed 0).

Definition Seed_u32 (r : t) (s : Z) : t :=
  Seed_seq r (SeedSeq256 [wrap 32 s]).

End Random.

(** ** [AliasTable] *)

Module AliasTable.

(** [double] is the IEEE 754 binary64 format, which is the primitive
    [float]; its operations round to nearest, ties to even. *)
Definition double : Set := PrimFloat.float.

(** [int shr_{0}; std::vector<uint32_t> a_; std::vector<uint32_t> p_;] *)
Record t : Type := mk { shr_ : Z; a_ : list Z; p_ : list Z }.

(** [AliasTable() = default]. *)
Definition empty : t := mk 0 [] [].

Definition UINT32_MAX : Z := 2 ^ 32 - 1.

(** [static_cast<double>] of a [size_t]. *)
Definition double_of_size (n : Z) : double :=
  PrimFloat.of_uint63 (Uint63.of_Z n).

(** [static_cast<uint32_t>] of a [double]: the value truncated toward
    zero.  C++ leaves the conversion undefined when the truncated value
    is not a [uint32_t]; there the model follows the x86-64 conversion
    (truncate to a signed 64-bit integer and keep the low 32 bits, which
    are 0 for a NaN, an infinity or a value beyond 64 bits). *)
Definition double_to_u32 (x : double) : Z :=
  match FloatOps.Prim2SF x with
  | SpecFloat.S754_finite s m e =>
      let mag := if 0 <=? e then Z.pos m * 2 ^ e else Z.pos m / 2 ^ (- e) in
      let z := if s then - mag else mag in
      if (- 2 ^ 63 <=? z) && (z <? 2 ^ 63) then wrap 32 z else 0
  | _ => 0
  end.

(** [v.resize(sz, val)]. *)
Definition resize {A : Type} (sz : Z) (val : A) (v : list A) : list A :=
  take (Z.to_nat sz) v ++ replicate (Z.to_nat sz - length v) val.

(** [v[i]].  Every read of the function is guarded by [i < sz]; the
    default stands for a read the code never makes. *)
Definition at_ (v : list double) (i : Z) : double :=
  default PrimFloat.zero (v !! Z.to_nat i).

(** [RoundUp<size_t>]: [y] doubles in 64-bit arithmetic while [y < x].
    Once [y] has wrapped to 0 the loop cannot end, so 64 rounds decide
    it; [OutOfFuel] stands for the loop that does not end. *)
Fixpoint RoundUp_loop (fuel : nat) (x y k : Z) : outcome (Z * Z) :=
  if y <? x then
    match fuel with
    | O => OutOfFuel
    | S fuel' => RoundUp_loop fuel' x (wrap 64 (y * 2)) (k + 1)
    end
  else Returns (y, k).

Definition RoundUp (x : Z) : outcome (Z * Z) := RoundUp_loop 64 x 2 1.

Section with_scale.

(** The table size [sz] and the scale [d]. *)
Variables (sz : Z) (d : double).

(** [for(; i < sz && cond(v[i]); ++i)]: at most [sz - i] rounds. *)
Fixpoint skip_while (cond : double -> bool) (v : list double)
  (rounds : nat) (i : Z) : Z :=
  match rounds with
  | O => i
  | S rounds' =>
      if (i <? sz) && cond (at_ v i)
      then skip_while cond v rounds' (i + 1)
      else i
  end.

(** [for(; g < sz && v[g] < d; ++g)] *)
Definition next_large (v : list double) (g : Z) : Z :=
  skip_while (fun x => PrimFloat.ltb x d) v (Z.to_nat (sz - g)) g.

(** [for(; m < sz && v[m] >= d; ++m)] *)
Definition next_small (v : list double) (m : Z) : Z :=
  skip_while (fun x => PrimFloat.leb d x) v (Z.to_nat (sz - m)) m.

(** The loop [while(g < sz && m < sz)] that constructs the table, with
    the assertion at its head. *)
Fixpoint construct (fuel : nat) (v : list double) (a p : list Z)
  (g m mm : Z) : outcome (list double * list Z * list Z * Z * Z * Z) :=
  if (g <? sz) && (m <? sz) then
    match fuel with
    | O => OutOfFuel
    | S fuel' =>
        if negb (PrimFloat.ltb (at_ v m) d) then AssertionFailure else
        let p :=
          <[Z.to_nat m :=
              double_to_u32
                (PrimFloat.mul (PrimFloat.div 4294967296%float d)
                   (at_ v m))]> p in
        let a := <[Z.to_nat m := wrap 32 g]> a in
        let v :=
          <[Z.to_nat g :=
              PrimFloat.sub (PrimFloat.add (at_ v g) (at_ v m)) d]> v in
        let '(m, mm) :=
          if PrimFloat.leb d (at_ v g) || (mm <=? g) then
            let m := next_small v mm in (m, m + 1)
          else (g, mm) in
        let g := next_large v g in
        construct fuel' v a p g m mm
    end
  else Returns (v, a, p, g, m, mm).

(** [for(; i < sz; ++i) { if(skip(v[i])) continue;
    p_[i] = max; a_[i] = i; }] *)
Fixpoint fill_rest (skip : double -> bool) (v : list double)
  (rounds : nat) (i : Z) (a p : list Z) : list Z * list Z :=
  match rounds with
  | O => (a, p)
  | S rounds' =>
      if i <? sz then
        if skip (at_ v i) then fill_rest skip v rounds' (i + 1) a p
        else
          let p := <[Z.to_nat i := UINT32_MAX]> p in
          let a := <[Z.to_nat i := wrap 32 i]> a in
          fill_rest skip v rounds' (i + 1) a p
      else (a, p)
  end.

(** Lines 485-538, after the scale is known.  The main loop makes fewer
    than [4 * sz + 4] rounds (lemma [construct_ends]), so the fuel it is
    given here never runs out. *)
Definition CreateInplace_fill (v : list double) (a p : list Z)
  : outcome (list double * list Z * list Z) :=
  let g := next_large v 0 in
  let m := next_small v 0 in
  let mm := m + 1 in
  '(v, a, p, g, m, mm) ←
    construct (Z.to_nat (4 * sz + 4)) v a p g m mm;
  let '(a, p) :=
    if g <? sz then
      let p := <[Z.to_nat g := UINT32_MAX]> p in
      let a := <[Z.to_nat g := wrap 32 g]> a in
      fill_rest (fun x => PrimFloat.ltb x d) v
        (Z.to_nat (sz - (g + 1))) (g + 1) a p
    else (a, p) in
  let '(a, p) :=
    if m <? sz then
      let p := <[Z.to_nat m := UINT32_MAX]> p in
      let a := <[Z.to_nat m := wrap 32 m]> a in
      fill_rest (fun x => PrimFloat.ltb d x) v
        (Z.to_nat (sz - mm)) mm a p
    else (a, p) in
  Returns (v, a, p).

End with_scale.

(** Lines 474-483: the size check, the rounding, the three [resize]
    calls and the shift.  The result is the table with its arrays
    resized, the padded weight vector and the size [sz].  The vector is
    passed by value here, so [assert(v != nullptr)] always holds. *)
Definition CreateInplace_resize (tbl : t) (v : list double)
  : outcome (t * list double * Z) :=
  if Z.of_nat (length v) <=? UINT32_MAX then
    '(sz, k) ← RoundUp (Z.of_nat (length v));
    let v := resize sz PrimFloat.zero v in
    let a := resize sz 0 (a_ tbl) in
    let p := resize sz 0 (p_ tbl) in
    Returns (mk (64 - k) a p, v, sz)
  else AssertionFailure.

(** [CreateInplace(&v)]: the table and the caller's vector afterwards.
    [d = std::accumulate(v->begin(), v->end(), 0.0) / sz]. *)
Definition CreateInplace (tbl : t) (v : list double)
  : outcome (t * list double) :=
  '(tbl, v, sz) ← CreateInplace_resize tbl v;
  let d :=
    PrimFloat.div (fold_left PrimFloat.add v PrimFloat.zero)
      (double_of_size sz) in
  '(v, a, p) ← CreateInplace_fill sz d v (a_ tbl) (p_ tbl);
  Returns (mk (shr_ tbl) a p, v).

(** [Create(args...)] builds a vector of its own and works on it. *)
Definition Create (tbl : t) (v : list double) : outcome t :=
  '(tbl, _) ← CreateInplace tbl v;
  Returns tbl.

(** [Get(u)].  [None] stands for a read outside [p_] or [a_]. *)
Definition Get (tbl : t) (u : Z) : option Z :=
  let yx := random_u32_pair (Z.shiftr (wrap 64 u) (shr_ tbl)) in
  match p_ tbl !! Z.to_nat (snd yx) with
  | Some threshold =>
      if fst yx <? threshold then Some (to_int32 (snd yx))
      else
        match a_ tbl !! Z.to_nat (snd yx) with
        | Some alias => Some (to_int32 alias)
        | None => None
        end
  | None => None
  end.

(** The query as the specification words it: the slot is the top bits of
    the draw, [u >> shr_], and the comparison value is the low 32 bits of
    the same draw. *)
Definition Get_as_specified (tbl : t) (u : Z) : option Z :=
  let slot := Z.shiftr (wrap 64 u) (shr_ tbl) in
  let comparison := wrap 32 u in
  match p_ tbl !! Z.to_nat slot with
  | Some threshold =>
      if comparison <? threshold then Some (to_int32 slot)
      else
        match a_ tbl !! Z.to_nat slot with
        | Some alias => Some (to_int32 alias)
        | None => None
        end
  | None => None
  end.

End AliasTable.

(** ** [detail::random_i31] *)

Definition random_i31 (u : Z) : Z := Z.shiftr u 33.

(** ** [details::fnv] *)

Module details.

(** [fnv(hash, pos)]: [pos] is the character array from the pointer on,
    each character by its value as an [int]; the recursion stops at the
    first character 0.  The end of the list stands for the terminator that
    ends the array of a string literal.  [hash] is a [uint32_t], the
    product is taken in 32 bits and the promoted character is converted
    to 32 bits for the exclusive or. *)
Fixpoint fnv (hash : Z) (pos : list Z) : Z :=
  match pos with
  | [] => wrap 32 hash
  | c :: rest =>
      if c =? 0 then wrap 32 hash
      else fnv (Z.lxor (wrap 32 (wrap 32 hash * 16777619)) (wrap 32 c)) rest
  end.

End details.

(** ** Engines a program can hold *)

(** An engine exists only through a constructor, and changes only through
    the member functions of [Lehmer64Fast] and the seeding functions of
    [Random]. *)
Inductive reachable : Lehmer64Fast.t -> Prop :=
  | reach_new state : reachable (Lehmer64Fast.new state)
  | reach_new_default : reachable Lehmer64Fast.new_default
  | reach_new_seed seed : reachable (Lehmer64Fast.new_seed seed)
  | reach_SetState e state :
      reachable e -> reachable (Lehmer64Fast.SetState e state)
  | reach_Seed e seed :
      reachable e -> reachable (Lehmer64Fast.Seed e seed)
  | reach_Seed_seq e ss :
      reachable e -> reachable (Random.Seed_seq e ss)
  | reach_Seed_u32 e s :
      reachable e -> reachable (Random.Seed_u32 e s)
  | reach_Advance e :
      reachable e -> reachable (Lehmer64Fast.Advance e)
  | reach_Discard e count :
      reachable e -> reachable (Lehmer64Fast.Discard count e)
  | reach_call e :
      reachable e -> reachable (snd (Lehmer64Fast.call e)).

(** * Theorems *)

(** ** Arithmetic of [wrap] *)

Lemma wrap_range w z : 0 <= w -> 0 <= wrap w z < 2 ^ w.
Proof. intros Hw. unfold wrap. apply Z.mod_pos_bound. lia. Qed.

Lemma wrap_small w z : 0 <= z < 2 ^ w -> wrap w z = z.
Proof. intros H. unfold wrap. apply Z.mod_small. exact H. Qed.

Lemma wrap_idem w z : 0 <= w -> wrap w (wrap w z) = wrap w z.
Proof. intros Hw. apply wrap_small, wrap_range, Hw. Qed.

Lemma wrap_add_l w a b : wrap w (wrap w a + b) = wrap w (a + b).
Proof. unfold wrap. apply Zplus_mod_idemp_l. Qed.

Lemma wrap_add_r w a b : wrap w (a + wrap w b) = wrap w (a + b).
Proof. unfold wrap. apply Zplus_mod_idemp_r. Qed.

(** Bounds of a quotient by a positive constant from bounds of the
    dividend. *)
Ltac quotient_bounds :=
  split; [apply Z.div_pos; lia | apply Z.div_lt_upper_bound; lia].

(** The high half of a product with a 64-bit factor is below the other
    factor. *)
Lemma high_half_lt x range :
  0 <= x < 2 ^ 64 -> 0 < range -> 0 <= (x * range) / 2 ^ 64 < range.
Proof.
  intros Hx Hr. split.
  - apply Z.div_pos; nia.
  - apply Z.div_lt_upper_bound; nia.
Qed.

(** ** The engine *)

Lemma Advance_state e :
  Lehmer64Fast.state_ (Lehmer64Fast.Advance e)
  = (Lehmer64Fast.state_ e * 0xda942042e4dd58b5) mod 2 ^ 128.
Proof. reflexivity. Qed.

Lemma call_value e :
  fst (Lehmer64Fast.call e)
  = Lehmer64Fast.state_ (Lehmer64Fast.Advance e) / 2 ^ 64.
Proof.
  unfold Lehmer64Fast.call. cbn [fst].
  change (Lehmer64Fast.STYPE_BITS - Lehmer64Fast.RTYPE_BITS) with 64.
  change Lehmer64Fast.RTYPE_BITS with 64.
  rewrite Z.shiftr_div_pow2 by lia.
  apply wrap_small.
  pose proof (wrap_range 128 (Lehmer64Fast.state_ e * Lehmer64Fast.MCG_MULT)
                ltac:(lia)) as H.
  change (Lehmer64Fast.state_ (Lehmer64Fast.Advance e))
    with (wrap 128 (Lehmer64Fast.state_ e * Lehmer64Fast.MCG_MULT)).
  quotient_bounds.
Qed.

(** C7.  A draw replaces the state by [state * 0xda942042e4dd58b5 mod 2^128]
    and returns the top 64 bits of that new state: the new state is the
    returned value times [2^64] plus a remainder below [2^64].  The engine
    has no other field, and nothing else is returned. *)
Theorem call_advances_then_returns_top_bits (e : Lehmer64Fast.t) :
  let s' := (Lehmer64Fast.state_ e * 0xda942042e4dd58b5) mod 2 ^ 128 in
  Lehmer64Fast.call e = (s' / 2 ^ 64, Lehmer64Fast.mk s')
  /\ Lehmer64Fast.call e = (Z.shiftr s' 64, Lehmer64Fast.Advance e)
  /\ 0 <= s' / 2 ^ 64 < 2 ^ 64
  /\ s' = (s' / 2 ^ 64) * 2 ^ 64 + s' mod 2 ^ 64.
Proof.
  intros s'.
  assert (Hs : 0 <= s' < 2 ^ 128) by (apply Z.mod_pos_bound; lia).
  assert (Hv : fst (Lehmer64Fast.call e) = s' / 2 ^ 64) by apply call_value.
  assert (He : snd (Lehmer64Fast.call e) = Lehmer64Fast.mk s') by reflexivity.
  assert (Hc : Lehmer64Fast.call e = (s' / 2 ^ 64, Lehmer64Fast.mk s')).
  { rewrite <- Hv, <- He. apply surjective_pairing. }
  repeat split.
  - exact Hc.
  - rewrite Hc, Z.shiftr_div_pow2 by lia. reflexivity.
  - apply Z.div_pos; lia.
  - apply Z.div_lt_upper_bound; lia.
  - pose proof (Z.div_mod s' (2 ^ 64) ltac:(lia)). lia.
Qed.

Lemma SetState_odd e state :
  Z.odd (Lehmer64Fast.state_ (Lehmer64Fast.SetState e state)) = true.
Proof.
  unfold Lehmer64Fast.SetState. cbn [Lehmer64Fast.state_].
  rewrite <- Z.bit0_odd, Z.lor_spec. apply orb_true_r.
Qed.

Lemma Advance_odd e :
  Z.odd (Lehmer64Fast.state_ e) = true ->
  Z.odd (Lehmer64Fast.state_ (Lehmer64Fast.Advance e)) = true.
Proof.
  intros H. rewrite Advance_state.
  rewrite <- Z.bit0_odd, Z.mod_pow2_bits_low by lia.
  rewrite Z.bit0_odd, Z.odd_mul, H. reflexivity.
Qed.

Lemma Discard_odd count e :
  Z.odd (Lehmer64Fast.state_ e) = true ->
  Z.odd (Lehmer64Fast.state_ (Lehmer64Fast.Discard count e)) = true.
Proof.
  intros H. unfold Lehmer64Fast.Discard.
  apply (N.iter_invariant count _ Lehmer64Fast.Advance
           (fun e => Z.odd (Lehmer64Fast.state_ e) = true)).
  - intros x Hx. apply Advance_odd, Hx.
  - exact H.
Qed.

Lemma reachable_odd (e : Lehmer64Fast.t) :
  reachable e -> Z.odd (Lehmer64Fast.state_ e) = true.
Proof.
  intros H.
  induction H;
    try apply SetState_odd;
    try (apply Advance_odd; assumption);
    try (apply Discard_odd; assumption).
Qed.

(** C8.  The state of an engine is always odd.  [SetState] stores a state
    whose low bit is 1, whatever it is given; [Advance], [operator()] and
    [Discard] take a state with low bit 1 to a state with low bit 1; so
    every engine a program can hold (made by a constructor, changed by the
    member and seeding functions) has low bit 1. *)
Theorem engine_state_always_odd :
  (forall e state,
      Z.testbit (Lehmer64Fast.state_ (Lehmer64Fast.SetState e state)) 0
      = true)
  /\ (forall e seed,
         Z.testbit (Lehmer64Fast.state_ (Lehmer64Fast.Seed e seed)) 0 = true)
  /\ (forall e,
         Z.testbit (Lehmer64Fast.state_ e) 0 = true ->
         Z.testbit (Lehmer64Fast.state_ (Lehmer64Fast.Advance e)) 0 = true
         /\ Z.testbit (Lehmer64Fast.state_ (snd (Lehmer64Fast.call e))) 0
            = true
         /\ forall count,
              Z.testbit
                (Lehmer64Fast.state_ (Lehmer64Fast.Discard count e)) 0
              = true)
  /\ (forall e, reachable e -> Z.testbit (Lehmer64Fast.state_ e) 0 = true).
Proof.
  repeat split; intros; rewrite Z.bit0_odd in *.
  - apply SetState_odd.
  - apply SetState_odd.
  - apply Advance_odd; assumption.
  - apply Advance_odd; assumption.
  - apply Discard_odd; assumption.
  - apply reachable_odd; assumption.
Qed.

Lemma engine_state_always_odd_witness :
  Z.testbit
    (Lehmer64Fast.state_
       (snd (Lehmer64Fast.call
               (Lehmer64Fast.Discard 3 (Lehmer64Fast.new_seed (1, 2, 3, 4))))))
    0 = true.
Proof.
  apply (proj2 (proj2 (proj2 engine_state_always_odd))).
  apply reach_call, reach_Discard, reach_new_seed.
Defined.

(** C9.  Seeding with the same four words makes two engines, whatever
    state each held before, produce the same outputs over any number of
    draws and end in the same state.  The same holds for an engine
    constructed from the seed. *)
Theorem seeded_engines_agree
  (seed : Lehmer64Fast.seed_type) (k : nat) (e1 e2 : Lehmer64Fast.t) :
  Lehmer64Fast.draws k (Lehmer64Fast.Seed e1 seed)
  = Lehmer64Fast.draws k (Lehmer64Fast.Seed e2 seed)
  /\ Lehmer64Fast.draws k (Lehmer64Fast.new_seed seed)
     = Lehmer64Fast.draws k (Lehmer64Fast.Seed e1 seed)
  /\ length (fst (Lehmer64Fast.draws k (Lehmer64Fast.Seed e1 seed))) = k.
Proof.
  split; [reflexivity | split; [reflexivity |]].
  generalize (Lehmer64Fast.Seed e1 seed). induction k as [|k IH]; intros e.
  - reflexivity.
  - cbn [Lehmer64Fast.draws].
    destruct (Lehmer64Fast.call e) as [x e'] eqn:Hc.
    specialize (IH e'). destruct (Lehmer64Fast.draws k e') as [xs e''].
    cbn in *. now rewrite IH.
Qed.

(** ** The rejection threshold *)

(** C3.  For a range from 1 to [2^64 - 1], the threshold obtained from
    [-range] by one guarded subtraction and one guarded remainder is
    [2^64 mod range]. *)
Theorem rejection_threshold_is_pow64_mod (range : Z) :
  1 <= range < 2 ^ 64 ->
  rejection_threshold range = Returns (2 ^ 64 mod range).
Proof.
  intros H. unfold rejection_threshold.
  assert (H0 : wrap 64 (- range) = 2 ^ 64 - range).
  { unfold wrap. symmetry. apply (Z.mod_unique _ _ (-1)); lia. }
  rewrite H0.
  destruct (Z.leb_spec range (2 ^ 64 - range)) as [Hle|Hgt].
  - assert (H1 : wrap 64 (2 ^ 64 - range - range) = 2 ^ 64 - 2 * range).
    { replace (2 ^ 64 - range - range) with (2 ^ 64 - 2 * range) by lia.
      apply wrap_small. lia. }
    rewrite H1.
    destruct (Z.leb_spec range (2 ^ 64 - 2 * range)) as [Hle2|Hgt2].
    + destruct (Z.eqb_spec range 0) as [->|_]; [lia|].
      f_equal.
      replace (2 ^ 64 - 2 * range) with (2 ^ 64 + (-2) * range) by lia.
      rewrite Z.mod_add by lia.
      apply wrap_small.
      pose proof (Z.mod_pos_bound (2 ^ 64) range ltac:(lia)). lia.
    + f_equal. apply (Z.mod_unique _ _ 2); lia.
  - f_equal. apply (Z.mod_unique _ _ 1); lia.
Qed.

Lemma rejection_threshold_is_pow64_mod_witness :
  rejection_threshold 1000003 = Returns (2 ^ 64 mod 1000003).
Proof. apply rejection_threshold_is_pow64_mod. lia. Defined.

(** The threshold of a range from 1 to [2^64 - 1] is a value below the
    range; the branches of the computation are told apart by how often
    [range] fits into [2^64]. *)
Lemma rejection_threshold_value (range : Z) :
  1 <= range < 2 ^ 64 ->
  rejection_threshold range = Returns (2 ^ 64 mod range).
Proof.
  intros H.
  pose proof (Z.mod_pos_bound (2 ^ 64) range ltac:(lia)) as Ht.
  pose proof (Z.div_mod (2 ^ 64) range ltac:(lia)) as Hq.
  assert (Hq1 : 1 <= 2 ^ 64 / range) by (apply Z.div_le_lower_bound; lia).
  unfold rejection_threshold, wrap.
  replace ((- range) mod 2 ^ 64) with (2 ^ 64 - range)
    by (apply (Z.mod_unique _ _ (-1)); lia).
  destruct (Z.leb_spec range (2 ^ 64 - range)) as [Hle|Hgt].
  - rewrite (Z.mod_small (2 ^ 64 - range - range)) by lia.
    destruct (Z.leb_spec range (2 ^ 64 - range - range)) as [Hle2|Hgt2].
    + destruct (Z.eqb_spec range 0) as [->|_]; [lia|]. f_equal.
      replace (2 ^ 64 - range - range) with (2 ^ 64 + (-2) * range) by lia.
      rewrite Z.mod_add by lia. apply Z.mod_small. lia.
    + f_equal. assert (2 ^ 64 / range = 2) by nia. lia.
  - f_equal. assert (2 ^ 64 / range = 1) by nia. lia.
Qed.

(** Without the guard [l < range] in front of it, the threshold computation
    would divide by zero exactly at [range = 0]. *)
Lemma rejection_threshold_divides_by_zero (range : Z) :
  rejection_threshold range = DivisionByZero <-> range = 0.
Proof.
  unfold rejection_threshold. split.
  - destruct (range <=? wrap 64 (- range)); [|discriminate].
    destruct (range <=? wrap 64 (wrap 64 (- range) - range)); [|discriminate].
    destruct (Z.eqb_spec range 0); [trivial | discriminate].
  - intros ->. reflexivity.
Qed.

(** ** The bounded draw over any callback *)

Section random_u64_range_facts.

Context {S : Type} (get : S -> Z * S).

Lemma after_succ_r n s :
  after get (Datatypes.S n) s = snd (get (after get n s)).
Proof.
  revert s. induction n as [|n IH]; intros s; [reflexivity|].
  change (after get (Datatypes.S (Datatypes.S n)) s)
    with (after get (Datatypes.S n) (snd (get s))).
  rewrite IH. reflexivity.
Qed.

Lemma redraw_unfold fuel range t m l s :
  redraw get fuel range t m l s
  = if l <? t then
      match fuel with
      | O => OutOfFuel
      | Datatypes.S fuel' =>
          let m' :=
            wrap 128 (wrap 128 (wrap 64 (fst (get s))) * wrap 128 range) in
          redraw get fuel' range t m' (wrap 64 m') (snd (get s))
      end
    else Returns (m, s).
Proof. destruct fuel; cbn [redraw]; destruct (get s); reflexivity. Qed.

Lemma redraw_defined fuel range t m l s :
  redraw get fuel range t m l s <> DivisionByZero
  /\ redraw get fuel range t m l s <> AssertionFailure.
Proof.
  revert m l s. induction fuel as [|fuel IH]; intros m l s;
    rewrite redraw_unfold; destruct (l <? t); try (split; discriminate).
  apply IH.
Qed.

(** More fuel does not change a result. *)
Lemma redraw_fuel_mono fuel range t m l s v :
  redraw get fuel range t m l s = Returns v ->
  forall fuel', (fuel <= fuel')%nat ->
  redraw get fuel' range t m l s = Returns v.
Proof.
  revert m l s. induction fuel as [|fuel IH]; intros m l s H fuel' Hle;
    rewrite redraw_unfold in H; rewrite redraw_unfold;
    destruct (l <? t); try discriminate; try exact H.
  destruct fuel' as [|fuel']; [lia|].
  apply IH; [exact H | lia].
Qed.

(** The loop ends as soon as one of the coming draws is accepted. *)
Lemma redraw_returns range t n :
  forall m l s,
    t <= wrap 64 (wrap 128 (wrap 128 (wrap 64 (fst (get (after get n s))))
                              * wrap 128 range)) ->
    forall fuel, (n < fuel)%nat ->
    exists v, redraw get fuel range t m l s = Returns v.
Proof.
  induction n as [|n IH]; intros m l s Hacc fuel Hfuel;
    rewrite redraw_unfold; destruct (l <? t); eauto;
    destruct fuel as [|fuel]; try lia.
  - cbn [after] in Hacc. cbv zeta.
    rewrite redraw_unfold.
    destruct (Z.ltb_spec
                (wrap 64 (wrap 128 (wrap 128 (wrap 64 (fst (get s)))
                                    * wrap 128 range))) t); [lia | eauto].
  - cbv zeta. apply IH; [exact Hacc | lia].
Qed.

(** Whatever the callback returns, the function never divides by zero
    and never fails an assertion. *)
Lemma random_u64_range_defined fuel range s :
  random_u64_range get fuel range s <> DivisionByZero
  /\ random_u64_range get fuel range s <> AssertionFailure.
Proof.
  unfold random_u64_range. destruct (get s) as [x s1].
  cbv zeta.
  set (m := wrap 128 (wrap 128 (wrap 64 x) * wrap 128 range)).
  destruct (Z.ltb_spec (wrap 64 m) range) as [Hlt|Hge];
    [|split; discriminate].
  pose proof (wrap_range 64 m ltac:(lia)) as Hl.
  destruct (rejection_threshold range) as [t| | |] eqn:Ht.
  - pose proof (redraw_defined fuel range t m (wrap 64 m) s1) as [H1 H2].
    destruct (redraw get fuel range t m (wrap 64 m) s1) as [[m' s']| | |];
      try congruence; split; discriminate.
  - apply rejection_threshold_divides_by_zero in Ht. lia.
  - unfold rejection_threshold in Ht.
    repeat match type of Ht with
           | (if ?b then _ else _) = _ => destruct b
           end; discriminate.
  - split; discriminate.
Qed.

(** With [range = 0] the product is zero, the test [l < range] fails, and
    the function returns the high half of zero after its single draw. *)
Lemma random_u64_range_zero fuel s :
  random_u64_range get fuel 0 s = Returns (0, snd (get s)).
Proof.
  unfold random_u64_range. destruct (get s) as [x s1]. cbv zeta.
  replace (wrap 128 0) with 0 by reflexivity.
  rewrite Z.mul_0_r. reflexivity.
Qed.

(** A returned value is the high half of a product with [range]. *)
Lemma random_u64_range_below fuel range s r s' :
  0 < range < 2 ^ 64 ->
  random_u64_range get fuel range s = Returns (r, s') ->
  0 <= r < range.
Proof.
  intros Hr. unfold random_u64_range. destruct (get s) as [x s1]. cbv zeta.
  assert (Hhigh : forall x, 0 <= wrap 64 (Z.shiftr
            (wrap 128 (wrap 128 (wrap 64 x) * wrap 128 range)) 64) < range).
  { intros y. pose proof (wrap_range 64 y ltac:(lia)) as Hy.
    rewrite (wrap_small 128 (wrap 64 y)) by lia.
    rewrite (wrap_small 128 range) by lia.
    rewrite (wrap_small 128) by nia.
    rewrite Z.shiftr_div_pow2 by lia.
    pose proof (high_half_lt (wrap 64 y) range Hy ltac:(lia)).
    rewrite wrap_small; lia. }
  destruct (_ <? range).
  - destruct (rejection_threshold range) as [t| | |]; try discriminate.
    generalize (wrap 64 (wrap 128 (wrap 128 (wrap 64 x) * wrap 128 range))).
    pose proof (Hhigh x) as Hm.
    revert Hm.
    generalize (wrap 128 (wrap 128 (wrap 64 x) * wrap 128 range)).
    revert s1. clear x.
    induction fuel as [|fuel IH]; intros s1 m Hm l;
      rewrite redraw_unfold; destruct (l <? t); try discriminate.
    + intros [= <- <-]. exact Hm.
    + cbv zeta. apply IH. apply Hhigh.
    + intros [= <- <-]. exact Hm.
  - intros [= <- <-]. apply Hhigh.
Qed.

End random_u64_range_facts.

(** ** The orbit of the engine *)

(** The multiplier is 5 modulo 8, so its [2^j]-th power is
    [1 + 2^(j+2)] modulo [2^(j+3)]. *)
Lemma MCG_MULT_pow_pow2 (j : nat) :
  exists c,
    Lehmer64Fast.MCG_MULT ^ (2 ^ Z.of_nat j)
    = 1 + 4 * 2 ^ Z.of_nat j + c * (8 * 2 ^ Z.of_nat j).
Proof.
  induction j as [|j [c IH]].
  - exists ((Lehmer64Fast.MCG_MULT - 5) / 8). reflexivity.
  - rewrite Nat2Z.inj_succ, Z.pow_succ_r by lia.
    set (Q := 2 ^ Z.of_nat j) in *.
    assert (HQ : 0 < Q) by (apply Z.pow_pos_nonneg; lia).
    replace (2 * Q) with (Q + Q) by lia.
    rewrite Z.pow_add_r, IH by lia.
    exists (c + Q * (1 + 2 * c) * (1 + 2 * c)). ring.
Qed.

(** Multiplying by powers of the multiplier reaches, modulo [2^(j+2)],
    every odd value congruent to the start modulo 4. *)
Lemma orbit_reaches (j : nat) (s y : Z) :
  Z.odd y = true -> (4 | s - y) ->
  exists n, 0 <= n /\ (4 * 2 ^ Z.of_nat j | s * Lehmer64Fast.MCG_MULT ^ n - y).
Proof.
  intros Hy H4. induction j as [|j (n & Hn & c & Hc)].
  - exists 0. split; [lia|]. destruct H4 as [q Hq]. exists q.
    change (Z.of_nat 0) with 0. rewrite !Z.pow_0_r. lia.
  - rewrite Nat2Z.inj_succ, Z.pow_succ_r by lia.
    set (Q := 2 ^ Z.of_nat j) in *.
    assert (HQ : 0 < Q) by (apply Z.pow_pos_nonneg; lia).
    destruct (Z.Even_or_Odd c) as [[c' ->]|[c' ->]].
    + exists n. split; [exact Hn|]. exists c'. lia.
    + destruct (MCG_MULT_pow_pow2 j) as [k Hk]. fold Q in Hk.
      rewrite Z.odd_spec in Hy. destruct Hy as [y' ->].
      exists (n + Q). split; [lia|].
      rewrite Z.pow_add_r, Hk by lia.
      set (z := s * Lehmer64Fast.MCG_MULT ^ n) in *.
      assert (Hz : z = 2 * y' + 1 + (2 * c' + 1) * (4 * Q)) by lia.
      exists (c' + y' + 1 + (2 * c' + 1) * (2 * Q) + k * z).
      rewrite Z.mul_assoc. fold z. rewrite Hz at 1. rewrite Hz at 1. ring.
Qed.

Lemma Advance_range e :
  0 <= Lehmer64Fast.state_ (Lehmer64Fast.Advance e) < 2 ^ 128.
Proof. rewrite Advance_state. apply Z.mod_pos_bound. lia. Qed.

Lemma call_spec e :
  Lehmer64Fast.call e
  = (Lehmer64Fast.state_ (Lehmer64Fast.Advance e) / 2 ^ 64,
     Lehmer64Fast.Advance e).
Proof. rewrite <- call_value. apply surjective_pairing. Qed.

Lemma top_half_range z : 0 <= z < 2 ^ 128 -> 0 <= z / 2 ^ 64 < 2 ^ 64.
Proof.
  intros H. quotient_bounds.
Qed.

(** The state after further draws is the state times a power of the
    multiplier. *)
Lemma after_call_state (n : nat) (e : Lehmer64Fast.t) :
  Lehmer64Fast.state_ (after Lehmer64Fast.call n (Lehmer64Fast.Advance e))
  = (Lehmer64Fast.state_ (Lehmer64Fast.Advance e)
     * Lehmer64Fast.MCG_MULT ^ Z.of_nat n) mod 2 ^ 128.
Proof.
  revert e. induction n as [|n IH]; intros e.
  - cbn [after]. rewrite Z.pow_0_r, Z.mul_1_r.
    symmetry. apply Z.mod_small, Advance_range.
  - cbn [after]. rewrite call_spec. cbn [snd]. rewrite IH.
    rewrite (Advance_state (Lehmer64Fast.Advance e)).
    change 0xda942042e4dd58b5 with Lehmer64Fast.MCG_MULT.
    rewrite Zmult_mod_idemp_l, Nat2Z.inj_succ, Z.pow_succ_r by lia.
    f_equal. ring.
Qed.

(** From an odd state, some later draw returns the value 1. *)
Lemma engine_draws_one (e : Lehmer64Fast.t) :
  Z.odd (Lehmer64Fast.state_ e) = true ->
  exists n, fst (Lehmer64Fast.call (after Lehmer64Fast.call n e)) = 1.
Proof.
  intros Hodd.
  set (s := Lehmer64Fast.state_ (Lehmer64Fast.Advance e)).
  assert (Hs : Z.odd s = true) by (apply Advance_odd, Hodd).
  set (y := 2 ^ 64 + s mod 4).
  assert (Hmod : s mod 4 = 1 \/ s mod 4 = 3).
  { rewrite Z.odd_spec in Hs. destruct Hs as [h Hh].
    pose proof (Z.mod_pos_bound s 4 ltac:(lia)).
    pose proof (Z.div_mod s 4 ltac:(lia)). lia. }
  assert (Hy : Z.odd y = true).
  { unfold y. rewrite Z.odd_add. destruct Hmod as [-> | ->]; reflexivity. }
  assert (H4 : (4 | s - y)).
  { exists (s / 4 - 2 ^ 62). unfold y.
    pose proof (Z.div_mod s 4 ltac:(lia)). lia. }
  destruct (orbit_reaches 126 s y Hy H4) as (n & Hn & c & Hc).
  exists (Z.to_nat n).
  rewrite call_spec. cbn [fst].
  replace (Lehmer64Fast.Advance (after Lehmer64Fast.call (Z.to_nat n) e))
    with (after Lehmer64Fast.call (Z.to_nat n) (Lehmer64Fast.Advance e)).
  - rewrite after_call_state, Z2Nat.id by lia. fold s.
    replace (s * Lehmer64Fast.MCG_MULT ^ n) with (y + c * 2 ^ 128)
      by (change (4 * 2 ^ Z.of_nat 126) with (2 ^ 128) in Hc; lia).
    rewrite Z.mod_add by lia.
    rewrite Z.mod_small by (unfold y; lia).
    unfold y. symmetry. apply (Z.div_unique _ _ 1 (s mod 4)); lia.
  - change (Lehmer64Fast.Advance (after Lehmer64Fast.call (Z.to_nat n) e))
      with (snd (Lehmer64Fast.call (after Lehmer64Fast.call (Z.to_nat n) e))).
    rewrite <- after_succ_r. reflexivity.
Qed.

(** ** The bounded draw over the engine *)

Lemma high_half_of_product z range :
  0 <= z < 2 ^ 128 -> 0 < range < 2 ^ 64 ->
  wrap 64 (Z.shiftr
             (wrap 128 (wrap 128 (wrap 64 (z / 2 ^ 64)) * wrap 128 range)) 64)
  = (z / 2 ^ 64 * range) / 2 ^ 64.
Proof.
  intros Hz Hr. pose proof (top_half_range z Hz) as Hx.
  rewrite (wrap_small 64 (z / 2 ^ 64)) by lia.
  rewrite (wrap_small 128 (z / 2 ^ 64)) by lia.
  rewrite (wrap_small 128 range) by lia.
  rewrite (wrap_small 128) by nia.
  rewrite Z.shiftr_div_pow2 by lia.
  pose proof (high_half_lt (z / 2 ^ 64) range Hx ltac:(lia)).
  apply wrap_small. lia.
Qed.

(** Along the loop, [m] stays the product of [range] with the value of the
    latest draw, which is the top half of the engine's state, and [l] its
    low half; the loop is left with [l] not below the threshold. *)
Lemma redraw_call_invariant fuel range t :
  forall m l e m' e',
    redraw Lehmer64Fast.call fuel range t m l e = Returns (m', e') ->
    m = wrap 128 (wrap 128 (wrap 64 (Lehmer64Fast.state_ e / 2 ^ 64))
                  * wrap 128 range) ->
    l = wrap 64 m ->
    m' = wrap 128 (wrap 128 (wrap 64 (Lehmer64Fast.state_ e' / 2 ^ 64))
                   * wrap 128 range)
    /\ t <= wrap 64 m'
    /\ exists k, e' = after Lehmer64Fast.call k e.
Proof.
  induction fuel as [|fuel IH]; intros m l e m' e' H Hm Hl;
    rewrite redraw_unfold in H;
    destruct (Z.ltb_spec l t) as [Hlt|Hge]; try discriminate.
  - injection H as <- <-. repeat split; [exact Hm | lia | now exists O].
  - cbv zeta in H. rewrite call_spec in H. cbn [fst snd] in H.
    apply IH in H; [|reflexivity|reflexivity].
    destruct H as (H & Ht & k & Hk). repeat split; [exact H | exact Ht |].
    exists (Datatypes.S k). cbn [after]. rewrite call_spec. exact Hk.
  - injection H as <- <-. repeat split; [exact Hm | lia | now exists O].
Qed.

(** Over an engine with an odd state the rejection loop ends, whatever
    the threshold up to [range]. *)
Lemma engine_redraw_returns range t m l (e : Lehmer64Fast.t) :
  0 < range < 2 ^ 64 -> t <= range ->
  Z.odd (Lehmer64Fast.state_ e) = true ->
  exists n v, redraw Lehmer64Fast.call (Datatypes.S n) range t m l e
              = Returns v.
Proof.
  intros Hr Ht Hodd. destruct (engine_draws_one e Hodd) as [n Hn].
  exists n.
  apply (redraw_returns Lehmer64Fast.call range t n m l e); [|lia].
  rewrite Hn. rewrite (wrap_small 64 1), (wrap_small 128 1) by lia.
  rewrite (wrap_small 128 range) by lia.
  rewrite Z.mul_1_l, (wrap_small 128 range), (wrap_small 64 range); lia.
Qed.

(** C2.  For a range from 1 to [2^64 - 1] and an engine with an odd state
    (every engine a program can hold), the bounded draw returns: there is
    an amount of fuel from which on the result is one and the same value
    [r] and engine [e'].  [e'] is the engine after the last draw, whose
    value [x] was accepted (the low half of [x * range] is not below
    [2^64 mod range]); [r] is the high 64 bits of [x * range], and it is
    below [range].  With any fuel at all, a returned value is below
    [range]. *)
Theorem u64_range_returns_below_range (range : Z) (e : Lehmer64Fast.t) :
  0 < range < 2 ^ 64 ->
  Z.odd (Lehmer64Fast.state_ e) = true ->
  exists (fuel : nat) (r : Z) (e' : Lehmer64Fast.t) (k : nat) (x : Z),
    (forall fuel', (fuel <= fuel')%nat ->
                   Random.u64_range fuel' range e = Returns (r, e'))
    /\ Lehmer64Fast.call (after Lehmer64Fast.call k e) = (x, e')
    /\ 2 ^ 64 mod range <= (x * range) mod 2 ^ 64
    /\ r = (x * range) / 2 ^ 64
    /\ 0 <= r < range
    /\ (forall fuel0 r0 e0,
           Random.u64_range fuel0 range e = Returns (r0, e0) ->
           0 <= r0 < range).
Proof.
  intros Hr Hodd.
  assert (Hbelow : forall fuel0 r0 e0,
             Random.u64_range fuel0 range e = Returns (r0, e0) ->
             0 <= r0 < range).
  { intros fuel0 r0 e0 H. unfold Random.u64_range in H.
    rewrite (wrap_small 64 range) in H by lia.
    eapply random_u64_range_below; eauto. }
  unfold Random.u64_range in *. rewrite (wrap_small 64 range) in * by lia.
  unfold random_u64_range in *. rewrite call_spec in *. cbv zeta in *.
  set (e1 := Lehmer64Fast.Advance e) in *.
  pose proof (Advance_range e) as He1. fold e1 in He1.
  set (m := wrap 128 (wrap 128 (wrap 64 (Lehmer64Fast.state_ e1 / 2 ^ 64))
                      * wrap 128 range)) in *.
  assert (Ht : 0 <= 2 ^ 64 mod range < range)
    by (apply Z.mod_pos_bound; lia).
  assert (Hprod : forall z, 0 <= z < 2 ^ 128 ->
            wrap 64 (wrap 128 (wrap 128 (wrap 64 (z / 2 ^ 64))
                               * wrap 128 range))
            = (z / 2 ^ 64 * range) mod 2 ^ 64).
  { intros z Hz. pose proof (top_half_range z Hz) as Hx.
    rewrite (wrap_small 64 (z / 2 ^ 64)) by lia.
    rewrite (wrap_small 128 (z / 2 ^ 64)) by lia.
    rewrite (wrap_small 128 range) by lia.
    rewrite (wrap_small 128) by nia. reflexivity. }
  destruct (Z.ltb_spec (wrap 64 m) range) as [Hlt|Hge].
  - rewrite rejection_threshold_value in * by lia.
    set (t := 2 ^ 64 mod range) in *.
    destruct (engine_redraw_returns range t m (wrap 64 m) e1)
      as (n & [m' e'] & Hv); [lia | lia | apply Advance_odd, Hodd |].
    destruct (redraw_call_invariant _ _ _ _ _ _ _ _ Hv eq_refl eq_refl)
      as (Hm' & Hacc & k & Hk).
    assert (He' : 0 <= Lehmer64Fast.state_ e' < 2 ^ 128).
    { subst e'. destruct k as [|k]; [exact He1|].
      rewrite after_succ_r, call_spec. apply Advance_range. }
    exists (Datatypes.S n), (wrap 64 (Z.shiftr m' 64)), e', k,
      (Lehmer64Fast.state_ e' / 2 ^ 64).
    assert (Hval : wrap 64 (Z.shiftr m' 64)
                   = (Lehmer64Fast.state_ e' / 2 ^ 64 * range) / 2 ^ 64).
    { rewrite Hm'. apply high_half_of_product; lia. }
    split; [|split; [|split; [|split; [|split]]]].
    + intros fuel' Hle.
      rewrite (redraw_fuel_mono _ _ _ _ _ _ _ _ Hv fuel' Hle). reflexivity.
    + rewrite call_spec. f_equal.
      * f_equal. f_equal. rewrite Hk.
        change (Lehmer64Fast.Advance (after Lehmer64Fast.call k e))
          with (snd (Lehmer64Fast.call (after Lehmer64Fast.call k e))).
        rewrite <- after_succ_r. cbn [after]. rewrite call_spec. reflexivity.
      * rewrite Hk.
        change (Lehmer64Fast.Advance (after Lehmer64Fast.call k e))
          with (snd (Lehmer64Fast.call (after Lehmer64Fast.call k e))).
        rewrite <- after_succ_r. cbn [after]. rewrite call_spec. reflexivity.
    + rewrite <- Hprod by exact He'. rewrite <- Hm'. exact Hacc.
    + exact Hval.
    + rewrite Hval. apply high_half_lt; [apply top_half_range|]; lia.
    + exact Hbelow.
  - exists O, (wrap 64 (Z.shiftr m 64)), e1, O,
      (Lehmer64Fast.state_ e1 / 2 ^ 64).
    assert (Hval : wrap 64 (Z.shiftr m 64)
                   = (Lehmer64Fast.state_ e1 / 2 ^ 64 * range) / 2 ^ 64).
    { apply high_half_of_product; lia. }
    split; [|split; [|split; [|split; [|split]]]].
    + reflexivity.
    + cbn [after]. apply call_spec.
    + rewrite <- Hprod by exact He1. fold m. lia.
    + exact Hval.
    + rewrite Hval. apply high_half_lt; [apply top_half_range|]; lia.
    + exact Hbelow.
Qed.

Lemma u64_range_returns_below_range_witness :
  exists (fuel : nat) (r : Z) (e' : Lehmer64Fast.t) (k : nat) (x : Z),
    (forall fuel', (fuel <= fuel')%nat ->
       Random.u64_range fuel' 1000003 Lehmer64Fast.new_default
       = Returns (r, e'))
    /\ Lehmer64Fast.call (after Lehmer64Fast.call k Lehmer64Fast.new_default)
       = (x, e')
    /\ 2 ^ 64 mod 1000003 <= (x * 1000003) mod 2 ^ 64
    /\ r = (x * 1000003) / 2 ^ 64
    /\ 0 <= r < 1000003
    /\ (forall fuel0 r0 e0,
           Random.u64_range fuel0 1000003 Lehmer64Fast.new_default
           = Returns (r0, e0) ->
           0 <= r0 < 1000003).
Proof.
  apply (u64_range_returns_below_range 1000003 Lehmer64Fast.new_default).
  - lia.
  - reflexivity.
Defined.

(** A run on the default engine: the first draw is accepted at once. *)
Example u64_range_default_engine :
  Random.u64_range 0 1000003 Lehmer64Fast.new_default
  = Returns (531448,
             Lehmer64Fast.mk 0x880cefbd2d45a339e1e724b0bbfb54e1).
Proof. vm_compute. reflexivity. Qed.

(** A callback that replays a list of values, for running the rejection
    loop: with range 3 the threshold is 1, the draws 0 and 0 are rejected
    and the draw 6148914691236517206 is accepted. *)
Example random_u64_range_rejects :
  random_u64_range (fun s : list Z => (hd 0 s, tl s)) 2 3
    [0; 0; 6148914691236517206; 7]
  = Returns (1, [7]).
Proof. vm_compute. reflexivity. Qed.

Example random_u64_range_out_of_fuel :
  random_u64_range (fun s : list Z => (hd 0 s, tl s)) 1 3
    [0; 0; 6148914691236517206; 7]
  = OutOfFuel.
Proof. vm_compute. reflexivity. Qed.

(** C10.  The function is defined on every input.  Whatever the callback,
    the fuel and the range, it neither divides by zero nor fails an
    assertion: the remainder [t %= range] sits behind the test
    [l < range], which no [l] passes when [range = 0].  With [range = 0]
    it returns 0 and leaves the callback in the state after exactly one
    call.  Over the engine, with an odd state, it returns for every
    range. *)
Theorem random_u64_range_total :
  (forall (S : Type) (get : S -> Z * S) (fuel : nat) (range : Z) (s : S),
      random_u64_range get fuel range s <> DivisionByZero
      /\ random_u64_range get fuel range s <> AssertionFailure)
  /\ (forall (S : Type) (get : S -> Z * S) (fuel : nat) (s : S),
         random_u64_range get fuel 0 s = Returns (0, after get 1 s))
  /\ (forall (range : Z) (e : Lehmer64Fast.t),
         Z.odd (Lehmer64Fast.state_ e) = true ->
         exists fuel v, Random.u64_range fuel range e = Returns v).
Proof.
  split; [|split].
  - intros S get fuel range s. apply random_u64_range_defined.
  - intros S get fuel s. apply random_u64_range_zero.
  - intros range e Hodd.
    pose proof (wrap_range 64 range ltac:(lia)) as Hw.
    destruct (Z.eq_dec (wrap 64 range) 0) as [H0|H0].
    + unfold Random.u64_range. rewrite H0.
      exists O. eexists. apply random_u64_range_zero.
    + unfold Random.u64_range, random_u64_range.
      rewrite call_spec. cbv zeta.
      set (m := wrap 128 _).
      destruct (wrap 64 m <? wrap 64 range); [|exists O; eauto].
      rewrite rejection_threshold_value by lia.
      pose proof (Z.mod_pos_bound (2 ^ 64) (wrap 64 range) ltac:(lia)) as Ht.
      destruct (engine_redraw_returns (wrap 64 range)
                  (2 ^ 64 mod wrap 64 range) m (wrap 64 m)
                  (Lehmer64Fast.Advance e))
        as (n & [m' e'] & Hv); [lia | lia | apply Advance_odd, Hodd |].
      exists (Datatypes.S n). rewrite Hv. eauto.
Qed.

Lemma random_u64_range_total_witness :
  exists fuel v,
    Random.u64_range fuel 0 Lehmer64Fast.new_default = Returns v.
Proof.
  apply (proj2 (proj2 random_u64_range_total) 0 Lehmer64Fast.new_default).
  reflexivity.
Defined.

(** C4, as the code has it.  With [range = 0] the bounded draw of [Random]
    returns normally, whatever the fuel and the engine: its value is 0 and
    the engine has advanced once.  The function contains no assertion. *)
Theorem u64_range_zero_returns (fuel : nat) (r : Random.t) :
  Random.u64_range fuel 0 r = Returns (0, Lehmer64Fast.Advance r)
  /\ Random.u64_range fuel 0 r <> AssertionFailure
  /\ Random.u64_range fuel 0 r <> DivisionByZero
  /\ Random.u64_range fuel 0 r <> OutOfFuel.
Proof.
  assert (H : Random.u64_range fuel 0 r
              = Returns (0, Lehmer64Fast.Advance r)).
  { unfold Random.u64_range. change (wrap 64 0) with 0.
    rewrite random_u64_range_zero. reflexivity. }
  rewrite H. repeat split; discriminate.
Qed.

(** C4 as stated fails: on the default engine the call with [range = 0]
    returns the value 0. *)
Lemma u64_range_zero_returns_normally :
  Random.u64_range 0 0 Lehmer64Fast.new_default
  = Returns (0, Lehmer64Fast.mk 0x880cefbd2d45a339e1e724b0bbfb54e1).
Proof. vm_compute. reflexivity. Qed.

(** ** The multilinear hash *)

Section hash_impl_t_facts.

Variables INC INIT : Z.

Lemma next_num_accumulator k :
  next_num INC (accumulator INC INIT k)
  = (accumulator INC INIT (k + 1), accumulator INC INIT (k + 1)).
Proof.
  unfold next_num, accumulator. rewrite wrap_add_l.
  replace (INIT + k * INC + INC) with (INIT + (k + 1) * INC) by ring.
  reflexivity.
Qed.

Lemma hash_input_accumulates us :
  forall acc k,
    Forall (fun u => 0 <= u < 2 ^ 32) us ->
    hash_input INC us (wrap 64 acc) (accumulator INC INIT k)
    = (wrap 64 (acc + weighted_sum INC INIT (k + 1) us),
       accumulator INC INIT (k + Z.of_nat (length us))).
Proof.
  induction us as [|u us IH]; intros acc k Hus.
  - cbn [hash_input weighted_sum length]. now rewrite !Z.add_0_r.
  - inversion Hus as [|? ? Hu Hrest]; subst.
    cbn [hash_input weighted_sum]. rewrite next_num_accumulator.
    rewrite (wrap_small 32 u) by exact Hu.
    rewrite wrap_add_l, wrap_add_r.
    rewrite IH by exact Hrest.
    rewrite length_cons, Nat2Z.inj_succ.
    f_equal; f_equal; lia.
Qed.

Lemma hash_slots_from us len :
  Forall (fun u => 0 <= u < 2 ^ 32) us ->
  forall j : nat,
    hash_slots INC us len
      (accumulator INC INIT (Z.of_nat j * (Z.of_nat (length us) + 2)))
    = map (multilinear_slot INC INIT us) (seq j len).
Proof.
  intros Hus. induction len as [|len IH]; intros j; [reflexivity|].
  cbn [hash_slots seq map]. rewrite next_num_accumulator.
  set (n := Z.of_nat (length us)).
  set (first := Z.of_nat j * (n + 2) + 1).
  cbv beta iota.
  rewrite <- (wrap_idem 64 (INIT + first * INC)) at 1 by lia.
  fold (accumulator INC INIT first).
  rewrite hash_input_accumulates by exact Hus. fold n.
  rewrite next_num_accumulator.
  cbv beta iota.
  rewrite wrap_add_l, wrap_add_r.
  f_equal.
  - unfold multilinear_slot. fold n. fold first.
    set (sum := wrap 64 _).
    assert (Hsum : 0 <= sum < 2 ^ 64) by (apply wrap_range; lia).
    rewrite Z.shiftr_div_pow2 by lia. apply wrap_small. quotient_bounds.
  - rewrite <- IH. fold n. f_equal. f_equal. unfold first. lia.
Qed.

End hash_impl_t_facts.

(** C5.  On 32-bit inputs the hash writes, to every output slot, the top
    32 bits of the 64-bit sum of one fresh accumulator value, the products
    of fresh accumulator values with the inputs, and one more fresh value
    times 1.  The accumulator starts at [INIT], is advanced by [INC] modulo
    [2^64] before each use, and runs on from slot to slot: slot [j] takes
    its uses [j * (n + 2) + 1] to [(j + 1) * (n + 2)].  The increment of
    both instances of the hash is odd. *)
Theorem hash_impl_t_is_multilinear (INC INIT : Z) (us : list Z) (len : nat) :
  Forall (fun u => 0 <= u < 2 ^ 32) us ->
  hash_impl_t INC INIT us len = multilinear_hash INC INIT us len
  /\ length (hash_impl_t INC INIT us len) = len
  /\ (forall (j : nat), (j < len)%nat ->
        nth j (hash_impl_t INC INIT us len) 0
        = multilinear_slot INC INIT us j)
  /\ hash_implA = hash_impl_t 0x9e3779b97f4a7c15 0x3423da0b87484307
  /\ hash_implB = hash_impl_t 0x9e3779b97f4a7c15 0xdf8b06c40fa44478
  /\ Z.odd 0x9e3779b97f4a7c15 = true.
Proof.
  intros Hus.
  assert (H : hash_impl_t INC INIT us len = multilinear_hash INC INIT us len).
  { unfold hash_impl_t, multilinear_hash.
    rewrite <- (hash_slots_from INC INIT us len Hus 0).
    rewrite Z.mul_0_l. unfold accumulator.
    rewrite Z.mul_0_l, Z.add_0_r. reflexivity. }
  split; [exact H|]. rewrite H. unfold multilinear_hash.
  split; [|split; [|repeat split]].
  - now rewrite length_map, length_seq.
  - intros j Hj.
    rewrite (nth_indep _ 0 (multilinear_slot INC INIT us O))
      by now rewrite length_map, length_seq.
    rewrite (map_nth (multilinear_slot INC INIT us)), seq_nth by exact Hj.
    reflexivity.
Qed.

Lemma hash_impl_t_is_multilinear_witness :
  hash_implA [1; 2] 3 = multilinear_hash
                          0x9e3779b97f4a7c15 0x3423da0b87484307 [1; 2] 3.
Proof.
  apply (hash_impl_t_is_multilinear
           0x9e3779b97f4a7c15 0x3423da0b87484307 [1; 2] 3).
  repeat constructor; lia.
Defined.

(** A run: for the single input 1 the first slot is the top half of
    [(INIT + INC) + (INIT + 2 INC) * 1 + (INIT + 3 INC) * 1] modulo
    [2^64]. *)
Example hash_implA_run :
  hash_implA [1] 2 = [1371039867; 3786125313].
Proof. vm_compute. reflexivity. Qed.

(** ** The alias table: rounding the size up *)

Lemma RoundUp_loop_unfold fuel x y k :
  AliasTable.RoundUp_loop fuel x y k
  = if y <? x then
      match fuel with
      | O => OutOfFuel
      | Datatypes.S fuel' =>
          AliasTable.RoundUp_loop fuel' x (wrap 64 (y * 2)) (k + 1)
      end
    else Returns (y, k).
Proof. destruct fuel; reflexivity. Qed.

(** Started at [2^k], the doubling loop stops at the first power of two
    that is not below [x], provided [x <= 2^63]. *)
Lemma RoundUp_loop_pow2 fuel :
  forall x k,
    1 <= k <= 63 -> x <= 2 ^ 63 -> 63 <= k + Z.of_nat fuel ->
    exists k',
      AliasTable.RoundUp_loop fuel x (2 ^ k) k = Returns (2 ^ k', k')
      /\ k <= k' <= 63 /\ x <= 2 ^ k' /\ (k' = k \/ 2 ^ (k' - 1) < x).
Proof.
  induction fuel as [|fuel IH]; intros x k Hk Hx Hfuel;
    rewrite RoundUp_loop_unfold;
    destruct (Z.ltb_spec (2 ^ k) x) as [Hlt|Hge];
    try (exists k; repeat split; auto; lia).
  - assert (k < 63) by (apply (Z.pow_lt_mono_r_iff 2); lia). lia.
  - assert (Hk63 : k < 63) by (apply (Z.pow_lt_mono_r_iff 2); lia).
    assert (Hw : wrap 64 (2 ^ k * 2) = 2 ^ (k + 1)).
    { rewrite Z.pow_add_r, Z.pow_1_r by lia. apply wrap_small.
      assert (2 ^ k <= 2 ^ 62) by (apply Z.pow_le_mono_r; lia). lia. }
    rewrite Hw.
    destruct (IH x (k + 1)) as (k' & Hrun & Hk' & Hx' & Hmin); try lia.
    exists k'. repeat split; auto; try lia.
    right. destruct Hmin as [-> | Hmin]; [|exact Hmin].
    now replace (k + 1 - 1) with k by lia.
Qed.

Lemma RoundUp_spec x :
  x <= 2 ^ 63 ->
  exists k,
    AliasTable.RoundUp x = Returns (2 ^ k, k)
    /\ 1 <= k <= 63 /\ x <= 2 ^ k /\ (k = 1 \/ 2 ^ (k - 1) < x).
Proof.
  intros Hx. unfold AliasTable.RoundUp.
  destruct (RoundUp_loop_pow2 64 x 1) as (k & Hrun & Hk & Hle & Hmin);
    try lia.
  exists k. repeat split; auto; lia.
Qed.

(** Beyond [2^63] the doubling wraps to 0 and the loop does not end. *)
Example RoundUp_does_not_end :
  AliasTable.RoundUp (2 ^ 63 + 1) = OutOfFuel.
Proof. vm_compute. reflexivity. Qed.

(** ** The alias table: the loops of [CreateInplace] *)

Section with_scale_facts.

Variables (sz : Z) (d : AliasTable.double).

Lemma skip_while_ge cond v rounds :
  forall i, i <= AliasTable.skip_while sz cond v rounds i.
Proof.
  induction rounds as [|rounds IH]; intros i; cbn [AliasTable.skip_while];
    [lia|].
  destruct ((i <? sz) && cond (AliasTable.at_ v i)); [|lia].
  specialize (IH (i + 1)). lia.
Qed.

Lemma skip_while_step cond v rounds i :
  (0 < rounds)%nat ->
  (i <? sz) && cond (AliasTable.at_ v i) = true ->
  i + 1 <= AliasTable.skip_while sz cond v rounds i.
Proof.
  intros Hr Hc. destruct rounds as [|rounds]; [lia|].
  cbn [AliasTable.skip_while]. rewrite Hc. apply skip_while_ge.
Qed.

Lemma skip_while_stay cond v rounds i :
  (i <? sz) && cond (AliasTable.at_ v i) = false ->
  AliasTable.skip_while sz cond v rounds i = i.
Proof.
  intros Hc. destruct rounds; cbn [AliasTable.skip_while];
    [|rewrite Hc]; reflexivity.
Qed.

(** The rounds given to a scan are enough: the scan satisfies the
    equation of the [for] loop it stands for. *)
Lemma skip_while_loop cond v i :
  AliasTable.skip_while sz cond v (Z.to_nat (sz - i)) i
  = if (i <? sz) && cond (AliasTable.at_ v i)
    then AliasTable.skip_while sz cond v (Z.to_nat (sz - (i + 1))) (i + 1)
    else i.
Proof.
  destruct ((i <? sz) && cond (AliasTable.at_ v i)) eqn:Hc.
  - apply andb_true_iff in Hc as [Hi Hc]. apply Z.ltb_lt in Hi.
    replace (Z.to_nat (sz - i))
      with (Datatypes.S (Z.to_nat (sz - (i + 1)))) by lia.
    cbn [AliasTable.skip_while].
    apply Z.ltb_lt in Hi. rewrite Hi, Hc. reflexivity.
  - apply skip_while_stay, Hc.
Qed.

Lemma fill_rest_loop skip v i a p :
  AliasTable.fill_rest sz skip v (Z.to_nat (sz - i)) i a p
  = if i <? sz then
      if skip (AliasTable.at_ v i) then
        AliasTable.fill_rest sz skip v (Z.to_nat (sz - (i + 1))) (i + 1) a p
      else
        AliasTable.fill_rest sz skip v (Z.to_nat (sz - (i + 1))) (i + 1)
          (<[Z.to_nat i := wrap 32 i]> a)
          (<[Z.to_nat i := AliasTable.UINT32_MAX]> p)
    else (a, p).
Proof.
  destruct (Z.ltb_spec i sz) as [Hi|Hi].
  - replace (Z.to_nat (sz - i))
      with (Datatypes.S (Z.to_nat (sz - (i + 1)))) by lia.
    cbn [AliasTable.fill_rest].
    apply Z.ltb_lt in Hi. rewrite Hi. reflexivity.
  - replace (Z.to_nat (sz - i)) with O by lia. reflexivity.
Qed.

Lemma construct_unfold fuel v a p g m mm :
  AliasTable.construct sz d fuel v a p g m mm
  = if (g <? sz) && (m <? sz) then
      match fuel with
      | O => OutOfFuel
      | Datatypes.S fuel' =>
          if negb (PrimFloat.ltb (AliasTable.at_ v m) d)
          then AssertionFailure
          else
            let p1 :=
              <[Z.to_nat m :=
                  AliasTable.double_to_u32
                    (PrimFloat.mul (PrimFloat.div 4294967296%float d)
                       (AliasTable.at_ v m))]> p in
            let a1 := <[Z.to_nat m := wrap 32 g]> a in
            let v1 :=
              <[Z.to_nat g :=
                  PrimFloat.sub
                    (PrimFloat.add (AliasTable.at_ v g) (AliasTable.at_ v m))
                    d]> v in
            if PrimFloat.leb d (AliasTable.at_ v1 g) || (mm <=? g) then
              AliasTable.construct sz d fuel' v1 a1 p1
                (AliasTable.next_large sz d v1 g)
                (AliasTable.next_small sz d v1 mm)
                (AliasTable.next_small sz d v1 mm + 1)
            else
              AliasTable.construct sz d fuel' v1 a1 p1
                (AliasTable.next_large sz d v1 g) g mm
      end
    else Returns (v, a, p, g, m, mm).
Proof.
  destruct fuel; cbn [AliasTable.construct]; [reflexivity|].
  destruct ((g <? sz) && (m <? sz)); [|reflexivity].
  destruct (negb _); [reflexivity|]. cbv zeta.
  destruct (PrimFloat.leb _ _ || _); reflexivity.
Qed.

Lemma construct_exit fuel v a p g m mm :
  (g <? sz) && (m <? sz) = false ->
  AliasTable.construct sz d fuel v a p g m mm
  = Returns (v, a, p, g, m, mm).
Proof. intros H. rewrite construct_unfold, H. reflexivity. Qed.

Lemma construct_no_division fuel :
  forall v a p g m mm,
    AliasTable.construct sz d fuel v a p g m mm <> DivisionByZero.
Proof.
  induction fuel as [|fuel IH]; intros v a p g m mm;
    rewrite construct_unfold;
    destruct ((g <? sz) && (m <? sz)); try discriminate.
  destruct (negb _); [discriminate|]. cbv zeta.
  destruct (PrimFloat.leb _ _ || _); apply IH.
Qed.

(** The loop writes by index only: the three vectors keep their sizes. *)
Lemma construct_lengths fuel :
  forall v a p g m mm v' a' p' g' m' mm',
    AliasTable.construct sz d fuel v a p g m mm
    = Returns (v', a', p', g', m', mm') ->
    length v' = length v /\ length a' = length a /\ length p' = length p.
Proof.
  induction fuel as [|fuel IH]; intros v a p g m mm v' a' p' g' m' mm' H;
    rewrite construct_unfold in H;
    destruct ((g <? sz) && (m <? sz)); try discriminate;
    try (injection H as <- <- <- <- <- <-; auto).
  destruct (negb _); [discriminate|]. cbv zeta in H.
  destruct (PrimFloat.leb _ _ || _); apply IH in H;
    rewrite !length_insert in H; exact H.
Qed.

Lemma fill_rest_lengths skip v rounds :
  forall i a p,
    length (fst (AliasTable.fill_rest sz skip v rounds i a p)) = length a
    /\ length (snd (AliasTable.fill_rest sz skip v rounds i a p))
       = length p.
Proof.
  induction rounds as [|rounds IH]; intros i a p;
    cbn [AliasTable.fill_rest]; [auto|].
  destruct (i <? sz); [|auto].
  destruct (skip _); [apply IH|].
  cbv zeta. destruct (IH (i + 1) (<[Z.to_nat i := wrap 32 i]> a)
                        (<[Z.to_nat i := AliasTable.UINT32_MAX]> p))
    as [Ha Hp].
  rewrite Ha, Hp, !length_insert. auto.
Qed.

(** The measure of the main loop: what is left for [g] and for [mm]. *)
Let left_over (g mm : Z) : nat :=
  (Z.to_nat (sz - g) + Z.to_nat (sz + 1 - mm))%nat.

(** Each round either moves [g] or [mm] forward or is followed by a
    round that fails the assertion, so twice the measure bounds the
    number of rounds. *)
Lemma construct_ends fuel :
  forall v a p g m mm,
    (2 * left_over g mm + 1 < fuel)%nat ->
    AliasTable.construct sz d fuel v a p g m mm <> OutOfFuel.
Proof.
  induction fuel as [|fuel IH]; intros v a p g m mm Hfuel; [lia|].
  rewrite construct_unfold.
  destruct ((g <? sz) && (m <? sz)) eqn:Hguard; [|discriminate].
  apply andb_true_iff in Hguard as [Hg Hm].
  apply Z.ltb_lt in Hg, Hm.
  destruct (negb _); [discriminate|]. cbv zeta.
  set (v1 := <[Z.to_nat g := _]> v).
  set (a1 := <[Z.to_nat m := wrap 32 g]> a).
  set (p1 := <[Z.to_nat m := _]> p).
  pose proof (skip_while_ge (fun x => PrimFloat.ltb x d) v1
                (Z.to_nat (sz - g)) g) as Hg'.
  fold (AliasTable.next_large sz d v1 g) in Hg'.
  destruct (PrimFloat.leb d (AliasTable.at_ v1 g) || (mm <=? g)).
  - pose proof (skip_while_ge (fun x => PrimFloat.leb d x) v1
                  (Z.to_nat (sz - mm)) mm) as Hm'.
    fold (AliasTable.next_small sz d v1 mm) in Hm'.
    destruct ((AliasTable.next_large sz d v1 g <? sz)
              && (AliasTable.next_small sz d v1 mm <? sz)) eqn:Hguard';
      [|rewrite construct_exit by exact Hguard'; discriminate].
    apply andb_true_iff in Hguard' as [Hg1 Hm1].
    apply Z.ltb_lt in Hg1, Hm1.
    apply IH. unfold left_over in *. lia.
  - destruct ((g <? sz) && PrimFloat.ltb (AliasTable.at_ v1 g) d) eqn:Hc.
    + pose proof (skip_while_step (fun x => PrimFloat.ltb x d) v1
                    (Z.to_nat (sz - g)) g ltac:(lia) Hc) as Hstep.
      fold (AliasTable.next_large sz d v1 g) in Hstep.
      destruct ((AliasTable.next_large sz d v1 g <? sz) && (g <? sz))
        eqn:Hguard';
        [|rewrite construct_exit by exact Hguard'; discriminate].
      apply andb_true_iff in Hguard' as [Hg1 _]. apply Z.ltb_lt in Hg1.
      apply IH. unfold left_over in *. lia.
    + unfold AliasTable.next_large.
      rewrite (skip_while_stay (fun x => PrimFloat.ltb x d)) by exact Hc.
      rewrite construct_unfold.
      apply Z.ltb_lt in Hg. rewrite Hg in *. cbn [andb] in *.
      destruct fuel as [|fuel]; [unfold left_over in *; lia|].
      rewrite Hc. cbn [negb]. discriminate.
Qed.

(** After the size is fixed the rest of [CreateInplace] ends: it
    returns vectors of the sizes it was given, or stops at the
    assertion of line 503. *)
Lemma CreateInplace_fill_ends v a p :
  0 <= sz ->
  AliasTable.CreateInplace_fill sz d v a p = AssertionFailure
  \/ exists v' a' p',
       AliasTable.CreateInplace_fill sz d v a p = Returns (v', a', p')
       /\ length v' = length v /\ length a' = length a
       /\ length p' = length p.
Proof.
  intros Hsz. unfold AliasTable.CreateInplace_fill. cbv zeta.
  set (g0 := AliasTable.next_large sz d v 0).
  set (m0 := AliasTable.next_small sz d v 0).
  pose proof (skip_while_ge (fun x => PrimFloat.ltb x d) v
                (Z.to_nat (sz - 0)) 0) as Hg0.
  pose proof (skip_while_ge (fun x => PrimFloat.leb d x) v
                (Z.to_nat (sz - 0)) 0) as Hm0.
  fold (AliasTable.next_large sz d v 0) in Hg0.
  fold (AliasTable.next_small sz d v 0) in Hm0. fold g0 in Hg0.
  fold m0 in Hm0.
  pose proof (construct_ends (Z.to_nat (4 * sz + 4)) v a p g0 m0 (m0 + 1))
    as Hends.
  pose proof (construct_lengths (Z.to_nat (4 * sz + 4)) v a p g0 m0
                (m0 + 1)) as Hlen.
  destruct (AliasTable.construct sz d (Z.to_nat (4 * sz + 4)) v a p g0 m0
              (m0 + 1)) as [[[[[[v' a'] p'] g'] m'] mm']| | |] eqn:Hrun.
  - right. destruct (Hlen _ _ _ _ _ _ eq_refl) as (Hv & Ha & Hp).
    cbn [mbind outcome_bind].
    set (ap1 := if g' <? sz then _ else (a', p')).
    assert (H1 : length (fst ap1) = length a
                 /\ length (snd ap1) = length p).
    { unfold ap1. destruct (g' <? sz); [|cbn; auto].
      cbv zeta.
      destruct (fill_rest_lengths (fun x => PrimFloat.ltb x d) v'
                  (Z.to_nat (sz - (g' + 1))) (g' + 1)
                  (<[Z.to_nat g' := wrap 32 g']> a')
                  (<[Z.to_nat g' := AliasTable.UINT32_MAX]> p'))
        as [E1 E2].
      rewrite E1, E2, !length_insert. auto. }
    destruct ap1 as [a1 p1]. cbn [fst snd] in H1.
    set (ap2 := if m' <? sz then _ else (a1, p1)).
    assert (H2 : length (fst ap2) = length a
                 /\ length (snd ap2) = length p).
    { unfold ap2. destruct (m' <? sz); [|cbn; tauto].
      cbv zeta.
      destruct (fill_rest_lengths (fun x => PrimFloat.ltb d x) v'
                  (Z.to_nat (sz - mm')) mm'
                  (<[Z.to_nat m' := wrap 32 m']> a1)
                  (<[Z.to_nat m' := AliasTable.UINT32_MAX]> p1))
        as [E1 E2].
      rewrite E1, E2, !length_insert. tauto. }
    destruct ap2 as [a2 p2]. cbn [fst snd] in H2.
    exists v', a2, p2. tauto.
  - exfalso. now apply (construct_no_division _ _ _ _ _ _ _ Hrun).
  - left. reflexivity.
  - exfalso. apply Hends; [|reflexivity]. unfold left_over. lia.
Qed.

End with_scale_facts.

(** ** The alias table: sizes *)

Lemma resize_length {A : Type} (sz : Z) (val : A) (v : list A) :
  length (AliasTable.resize sz val v) = Z.to_nat sz.
Proof.
  unfold AliasTable.resize.
  rewrite length_app, length_take, length_replicate. lia.
Qed.

Lemma resize_pads {A : Type} (sz : Z) (val : A) (v : list A) :
  Z.of_nat (length v) <= sz ->
  AliasTable.resize sz val v = v ++ replicate (Z.to_nat sz - length v) val.
Proof.
  intros H. unfold AliasTable.resize. rewrite take_ge by lia. reflexivity.
Qed.

(** Lines 474-483 on a vector of 1 to [2^32 - 1] weights. *)
Lemma CreateInplace_resize_spec tbl (v : list AliasTable.double) :
  1 <= Z.of_nat (length v) <= 2 ^ 32 - 1 ->
  exists k,
    1 <= k <= 32
    /\ Z.of_nat (length v) <= 2 ^ k
    /\ (k = 1 \/ 2 ^ (k - 1) < Z.of_nat (length v))
    /\ AliasTable.CreateInplace_resize tbl v
       = Returns
           (AliasTable.mk (64 - k)
              (AliasTable.resize (2 ^ k) 0 (AliasTable.a_ tbl))
              (AliasTable.resize (2 ^ k) 0 (AliasTable.p_ tbl)),
            v ++ replicate (Z.to_nat (2 ^ k) - length v) PrimFloat.zero,
            2 ^ k).
Proof.
  intros Hn.
  destruct (RoundUp_spec (Z.of_nat (length v)) ltac:(lia))
    as (k & Hrun & Hk & Hle & Hmin).
  exists k.
  assert (Hk32 : k <= 32).
  { destruct Hmin as [-> | Hmin]; [lia|].
    assert (k - 1 < 32); [|lia].
    apply (Z.pow_lt_mono_r_iff 2); lia. }
  repeat split; auto; try lia.
  unfold AliasTable.CreateInplace_resize.
  destruct (Z.leb_spec (Z.of_nat (length v)) AliasTable.UINT32_MAX) as [_|H];
    [|unfold AliasTable.UINT32_MAX in H; lia].
  rewrite Hrun. cbn [mbind outcome_bind].
  rewrite (resize_pads (2 ^ k) PrimFloat.zero v) by exact Hle.
  reflexivity.
Qed.

(** After the resizing, [CreateInplace] stops at the assertion of
    line 503 or returns the table with the shift of the resizing and
    vectors of the size [sz]. *)
Lemma CreateInplace_outcome tbl (v : list AliasTable.double) tbl1 v1 sz :
  AliasTable.CreateInplace_resize tbl v = Returns (tbl1, v1, sz) ->
  0 <= sz ->
  AliasTable.CreateInplace tbl v = AssertionFailure
  \/ exists tbl' v',
       AliasTable.CreateInplace tbl v = Returns (tbl', v')
       /\ length v' = length v1
       /\ length (AliasTable.a_ tbl') = length (AliasTable.a_ tbl1)
       /\ length (AliasTable.p_ tbl') = length (AliasTable.p_ tbl1)
       /\ AliasTable.shr_ tbl' = AliasTable.shr_ tbl1.
Proof.
  intros Hresize Hsz. unfold AliasTable.CreateInplace. rewrite Hresize.
  cbn [mbind outcome_bind].
  set (d := PrimFloat.div _ _).
  destruct (CreateInplace_fill_ends sz d v1 (AliasTable.a_ tbl1)
              (AliasTable.p_ tbl1) Hsz)
    as [Hfail | (v' & a' & p' & Hrun & Hv & Ha & Hp)].
  - left. rewrite Hfail. reflexivity.
  - right. rewrite Hrun. cbn [mbind outcome_bind].
    exists (AliasTable.mk (AliasTable.shr_ tbl1) a' p'), v'.
    cbn [AliasTable.a_ AliasTable.p_ AliasTable.shr_]. auto.
Qed.

(** C6, with the bound the code asserts.  For a weight vector of 1 to
    [2^32 - 1] entries, [CreateInplace] takes the size [2^k] with [k] the
    least exponent from 1 on whose power is not below the length, appends
    zero weights up to that size and resizes [a_] and [p_] to it; then it
    either stops at the assertion of line 503 or returns, with the three
    vectors still of that size.  For 5 weights the size is 8. *)
Theorem CreateInplace_pads_to_power_of_two
  (tbl : AliasTable.t) (v : list AliasTable.double) :
  1 <= Z.of_nat (length v) <= 2 ^ 32 - 1 ->
  exists (k : Z) (tbl1 : AliasTable.t),
    1 <= k <= 32
    /\ Z.of_nat (length v) <= 2 ^ k
    /\ (k = 1 \/ 2 ^ (k - 1) < Z.of_nat (length v))
    /\ AliasTable.CreateInplace_resize tbl v
       = Returns
           (tbl1,
            v ++ replicate (Z.to_nat (2 ^ k) - length v) PrimFloat.zero,
            2 ^ k)
    /\ Z.of_nat (length (AliasTable.a_ tbl1)) = 2 ^ k
    /\ Z.of_nat (length (AliasTable.p_ tbl1)) = 2 ^ k
    /\ (AliasTable.CreateInplace tbl v = AssertionFailure
        \/ exists tbl' v',
             AliasTable.CreateInplace tbl v = Returns (tbl', v')
             /\ Z.of_nat (length v') = 2 ^ k
             /\ Z.of_nat (length (AliasTable.a_ tbl')) = 2 ^ k
             /\ Z.of_nat (length (AliasTable.p_ tbl')) = 2 ^ k
             /\ AliasTable.shr_ tbl' = 64 - k)
    /\ (length v = 5%nat -> 2 ^ k = 8).
Proof.
  intros Hn.
  destruct (CreateInplace_resize_spec tbl v Hn)
    as (k & Hk & Hle & Hmin & Hresize).
  assert (Hpos : 0 < 2 ^ k) by (apply Z.pow_pos_nonneg; lia).
  set (tbl1 := AliasTable.mk (64 - k)
                 (AliasTable.resize (2 ^ k) 0 (AliasTable.a_ tbl))
                 (AliasTable.resize (2 ^ k) 0 (AliasTable.p_ tbl))) in *.
  set (v1 := v ++ replicate (Z.to_nat (2 ^ k) - length v) PrimFloat.zero)
    in *.
  assert (Hv1 : Z.of_nat (length v1) = 2 ^ k).
  { unfold v1. rewrite length_app, length_replicate. lia. }
  assert (Ha1 : Z.of_nat (length (AliasTable.a_ tbl1)) = 2 ^ k).
  { unfold tbl1. cbn [AliasTable.a_]. rewrite resize_length. lia. }
  assert (Hp1 : Z.of_nat (length (AliasTable.p_ tbl1)) = 2 ^ k).
  { unfold tbl1. cbn [AliasTable.p_]. rewrite resize_length. lia. }
  exists k, tbl1. repeat split; auto; try lia.
  - destruct (CreateInplace_outcome tbl v tbl1 v1 (2 ^ k) Hresize ltac:(lia))
      as [Hfail | (tbl' & v' & Hrun & Hv & Ha & Hp & Hs)];
      [left; exact Hfail | right].
    exists tbl', v'. rewrite Hv, Ha, Hp, Hs. auto.
  - intros H5. rewrite H5 in *.
    assert (3 <= k).
    { destruct (Z.le_gt_cases 3 k) as [|Hlt]; [assumption|].
      assert (2 ^ k <= 2 ^ 2) by (apply Z.pow_le_mono_r; lia). lia. }
    assert (k <= 3).
    { destruct Hmin as [-> | Hmin]; [lia|].
      destruct (Z.le_gt_cases k 3) as [|Hgt]; [assumption|].
      assert (2 ^ 3 <= 2 ^ (k - 1)) by (apply Z.pow_le_mono_r; lia). lia. }
    now replace k with 3 by lia.
Qed.

Lemma CreateInplace_pads_to_power_of_two_witness :
  exists (k : Z) (tbl1 : AliasTable.t),
    1 <= k <= 32
    /\ 5 <= 2 ^ k
    /\ (k = 1 \/ 2 ^ (k - 1) < 5)
    /\ AliasTable.CreateInplace_resize AliasTable.empty [1; 2; 3; 4; 5]%float
       = Returns
           (tbl1,
            [1; 2; 3; 4; 5]%float
              ++ replicate (Z.to_nat (2 ^ k) - 5) PrimFloat.zero,
            2 ^ k)
    /\ Z.of_nat (length (AliasTable.a_ tbl1)) = 2 ^ k
    /\ Z.of_nat (length (AliasTable.p_ tbl1)) = 2 ^ k
    /\ (AliasTable.CreateInplace AliasTable.empty [1; 2; 3; 4; 5]%float
        = AssertionFailure
        \/ exists tbl' v',
             AliasTable.CreateInplace AliasTable.empty [1; 2; 3; 4; 5]%float
             = Returns (tbl', v')
             /\ Z.of_nat (length v') = 2 ^ k
             /\ Z.of_nat (length (AliasTable.a_ tbl')) = 2 ^ k
             /\ Z.of_nat (length (AliasTable.p_ tbl')) = 2 ^ k
             /\ AliasTable.shr_ tbl' = 64 - k)
    /\ (5%nat = 5%nat -> 2 ^ k = 8).
Proof.
  apply (CreateInplace_pads_to_power_of_two
           AliasTable.empty [1; 2; 3; 4; 5]%float).
  cbn [length]. lia.
Defined.

(** The run on five weights: eight slots, the last three for the padding. *)
Example CreateInplace_five_weights :
  AliasTable.CreateInplace AliasTable.empty [1; 2; 3; 4; 5]%float
  = Returns
      (AliasTable.mk 61 [1; 2; 3; 4; 4; 2; 3; 4]
         [2290649224; 2576980377; 858993459; 1431655765; 4294967295; 0; 0; 0],
       [1; 1.125; 0.375; 0.625; 1.875; 0; 0; 0]%float).
Proof. vm_compute. reflexivity. Qed.

(** A weight that is not a number stops the construction at line 503. *)
Example CreateInplace_nan_weight :
  AliasTable.CreateInplace AliasTable.empty [1; PrimFloat.nan]%float
  = AssertionFailure.
Proof. vm_compute. reflexivity. Qed.

(** C6 as stated fails at the length [2^32]: the assertion of line 475
    admits at most [2^32 - 1] weights, and the call stops there before any
    vector is resized. *)
Lemma CreateInplace_rejects_pow32_weights :
  Z.of_nat (length (replicate (Z.to_nat (2 ^ 32)) 1%float)) = 2 ^ 32
  /\ AliasTable.CreateInplace AliasTable.empty
       (replicate (Z.to_nat (2 ^ 32)) 1%float)
     = AssertionFailure
  /\ AliasTable.CreateInplace_resize AliasTable.empty
       (replicate (Z.to_nat (2 ^ 32)) 1%float)
     = AssertionFailure.
Proof.
  assert (Hlen : Z.of_nat (length (replicate (Z.to_nat (2 ^ 32)) 1%float))
                 = 2 ^ 32).
  { rewrite length_replicate. apply Z2Nat.id. lia. }
  assert (Hresize : AliasTable.CreateInplace_resize AliasTable.empty
                      (replicate (Z.to_nat (2 ^ 32)) 1%float)
                    = AssertionFailure).
  { unfold AliasTable.CreateInplace_resize, AliasTable.double.
    rewrite Hlen.
    destruct (Z.leb_spec (2 ^ 32) AliasTable.UINT32_MAX) as [H|_];
      [unfold AliasTable.UINT32_MAX in H; lia | reflexivity]. }
  split; [exact Hlen | split; [|exact Hresize]].
  unfold AliasTable.CreateInplace. rewrite Hresize. reflexivity.
Qed.

(** ** The alias table: the query *)

(** With a shift of 32 or more, the pair taken from [u >> shr_] has the
    top [64 - shr_] bits of the draw as its first component and 0 as its
    second component. *)
Lemma random_u32_pair_of_shifted_draw (u shr : Z) :
  32 <= shr <= 63 ->
  random_u32_pair (Z.shiftr (wrap 64 u) shr) = (wrap 64 u / 2 ^ shr, 0).
Proof.
  intros Hs. unfold random_u32_pair.
  pose proof (wrap_range 64 u ltac:(lia)) as Hu.
  rewrite !Z.shiftr_div_pow2 by lia.
  assert (Hp : 0 < 2 ^ shr) by (apply Z.pow_pos_nonneg; lia).
  assert (Htop : 0 <= wrap 64 u / 2 ^ shr < 2 ^ 32).
  { split; [apply Z.div_pos; lia|].
    apply Z.div_lt_upper_bound; [lia|].
    assert (2 ^ 32 <= 2 ^ shr) by (apply Z.pow_le_mono_r; lia). nia. }
  f_equal.
  - apply wrap_small. exact Htop.
  - rewrite Z.div_small by exact Htop. reflexivity.
Qed.

(** The table that [CreateInplace] returns has the shift [64 - k], from
    32 to 63, and [2^k] slots in both arrays. *)
Lemma CreateInplace_shift tbl (v : list AliasTable.double) tbl' v' :
  1 <= Z.of_nat (length v) <= 2 ^ 32 - 1 ->
  AliasTable.CreateInplace tbl v = Returns (tbl', v') ->
  32 <= AliasTable.shr_ tbl' <= 63
  /\ Z.of_nat (length (AliasTable.p_ tbl')) = 2 ^ (64 - AliasTable.shr_ tbl')
  /\ length (AliasTable.a_ tbl') = length (AliasTable.p_ tbl').
Proof.
  intros Hn Hrun.
  destruct (CreateInplace_resize_spec tbl v Hn)
    as (k & Hk & Hle & Hmin & Hresize).
  assert (Hpos : 0 < 2 ^ k) by (apply Z.pow_pos_nonneg; lia).
  destruct (CreateInplace_outcome _ _ _ _ _ Hresize ltac:(lia))
    as [Hfail | (tbl2 & v2 & Hrun2 & _ & Ha & Hp & Hs)]; [congruence|].
  rewrite Hrun in Hrun2. injection Hrun2 as <- <-.
  cbn [AliasTable.a_ AliasTable.p_ AliasTable.shr_] in Ha, Hp, Hs.
  rewrite Ha, Hp, Hs, !resize_length.
  replace (64 - (64 - k)) with k by lia. repeat split; lia.
Qed.

(** In every table that [CreateInplace] returns, [Get] reads slot 0 only:
    it compares the top bits of the draw with [p_[0]] and returns 0 or
    [a_[0]]. *)
Lemma Get_reads_first_slot tbl (v : list AliasTable.double) tbl' v' u :
  1 <= Z.of_nat (length v) <= 2 ^ 32 - 1 ->
  AliasTable.CreateInplace tbl v = Returns (tbl', v') ->
  exists threshold alias,
    AliasTable.p_ tbl' !! O = Some threshold
    /\ AliasTable.a_ tbl' !! O = Some alias
    /\ AliasTable.Get tbl' u
       = Some (to_int32
                 (if wrap 64 u / 2 ^ AliasTable.shr_ tbl' <? threshold
                  then 0 else alias)).
Proof.
  intros Hn Hrun.
  destruct (CreateInplace_shift tbl v tbl' v' Hn Hrun) as (Hs & Hp & Ha).
  assert (Hpos : 0 < 2 ^ (64 - AliasTable.shr_ tbl'))
    by (apply Z.pow_pos_nonneg; lia).
  destruct (AliasTable.p_ tbl') as [|threshold p] eqn:Ep;
    [cbn [length] in Hp; lia|].
  destruct (AliasTable.a_ tbl') as [|alias a] eqn:Ea;
    [cbn [length] in Ha; lia|].
  exists threshold, alias. repeat split.
  unfold AliasTable.Get.
  rewrite random_u32_pair_of_shifted_draw by exact Hs.
  cbn [fst snd]. rewrite Ep, Ea. change (Z.to_nat 0) with O.
  cbn [lookup list_lookup].
  destruct (_ <? threshold); reflexivity.
Qed.

(** C1 on the weights [1, 1].  The table has two slots, both with the
    threshold [2^32 - 1] and themselves as alias, and the shift 63.  The
    top bit of the draw [2^63] is 1: split as the claim says, the draw
    selects slot 1 and the query returns 1.  [Get] takes slot 0 for it, as
    for every draw, and returns 0; index 1, which has half of the weight,
    is never returned. *)
Theorem Get_equal_weights_returns_first_index :
  AliasTable.Create AliasTable.empty [1; 1]%float
  = Returns (AliasTable.mk 63 [0; 1] [4294967295; 4294967295])
  /\ random_u32_pair (Z.shiftr (2 ^ 63) 63) = (1, 0)
  /\ AliasTable.Get_as_specified
       (AliasTable.mk 63 [0; 1] [4294967295; 4294967295]) (2 ^ 63) = Some 1
  /\ AliasTable.Get (AliasTable.mk 63 [0; 1] [4294967295; 4294967295])
       (2 ^ 63) = Some 0
  /\ (forall u,
        AliasTable.Get (AliasTable.mk 63 [0; 1] [4294967295; 4294967295]) u
        = Some 0).
Proof.
  split; [vm_compute; reflexivity|].
  split; [reflexivity|]. split; [reflexivity|]. split; [reflexivity|].
  intros u. unfold AliasTable.Get. cbn [AliasTable.shr_].
  rewrite random_u32_pair_of_shifted_draw by lia.
  cbn [fst snd AliasTable.p_ AliasTable.a_].
  change (Z.to_nat 0) with O. cbn [lookup list_lookup].
  pose proof (wrap_range 64 u ltac:(lia)) as Hu.
  assert (wrap 64 u / 2 ^ 63 < 2) by (apply Z.div_lt_upper_bound; lia).
  destruct (Z.ltb_spec (wrap 64 u / 2 ^ 63) 4294967295); [reflexivity | lia].
Qed.

(** * Further properties of the header *)

(** ** The engine: jumps, inverses and the period *)

(** A power of two that divides the product of an odd number with [c]
    divides [c]. *)
Lemma pow2_divide_odd_mul (k : nat) (s c : Z) :
  Z.odd s = true -> (2 ^ Z.of_nat k | s * c) -> (2 ^ Z.of_nat k | c).
Proof.
  intros Hs. rewrite Z.odd_spec in Hs. destruct Hs as [h ->].
  induction k as [|k IH]; intros Hd.
  - exists c. change (2 ^ Z.of_nat 0) with 1. lia.
  - rewrite Nat2Z.inj_succ, Z.pow_succ_r in * by lia.
    set (Q := 2 ^ Z.of_nat k) in *.
    assert (HQ : 0 < Q) by (apply Z.pow_pos_nonneg; lia).
    destruct IH as [c' ->].
    { destruct Hd as [z Hz]. exists (2 * z). lia. }
    destruct Hd as [z Hz].
    assert (Hc : (2 * h + 1) * c' = 2 * z) by nia.
    exists (z - h * c'). nia.
Qed.

Lemma Discard_zero e : Lehmer64Fast.Discard 0 e = e.
Proof. reflexivity. Qed.

Lemma Discard_succ count e :
  Lehmer64Fast.Discard (N.succ count) e
  = Lehmer64Fast.Advance (Lehmer64Fast.Discard count e).
Proof. unfold Lehmer64Fast.Discard. apply N.iter_succ. Qed.

(** The state after a jump is the state times a power of the
    multiplier. *)
Lemma Discard_state (count : N) (e : Lehmer64Fast.t) :
  0 <= Lehmer64Fast.state_ e < 2 ^ 128 ->
  Lehmer64Fast.state_ (Lehmer64Fast.Discard count e)
  = (Lehmer64Fast.state_ e * Lehmer64Fast.MCG_MULT ^ Z.of_N count)
    mod 2 ^ 128.
Proof.
  intros Hwf. induction count as [|count IH] using N.peano_ind.
  - rewrite Discard_zero. change (Z.of_N 0) with 0.
    rewrite Z.pow_0_r, Z.mul_1_r. symmetry. apply Z.mod_small, Hwf.
  - rewrite Discard_succ, Advance_state, IH.
    change 0xda942042e4dd58b5 with Lehmer64Fast.MCG_MULT.
    rewrite Zmult_mod_idemp_l, N2Z.inj_succ, Z.pow_succ_r by lia.
    f_equal. ring.
Qed.

Lemma Discard_add (c1 c2 : N) (e : Lehmer64Fast.t) :
  Lehmer64Fast.Discard (c1 + c2) e
  = Lehmer64Fast.Discard c2 (Lehmer64Fast.Discard c1 e).
Proof.
  induction c2 as [|c2 IH] using N.peano_ind.
  - now rewrite N.add_0_r, Discard_zero.
  - now rewrite N.add_succ_r, !Discard_succ, IH.
Qed.

Lemma draws_engine (k : nat) :
  forall e,
    snd (Lehmer64Fast.draws k e) = Lehmer64Fast.Discard (N.of_nat k) e
    /\ length (fst (Lehmer64Fast.draws k e)) = k
    /\ Forall (fun x => 0 <= x < 2 ^ 64) (fst (Lehmer64Fast.draws k e)).
Proof.
  induction k as [|k IH]; intros e.
  - cbn. auto.
  - cbn [Lehmer64Fast.draws]. rewrite call_spec.
    destruct (IH (Lehmer64Fast.Advance e)) as (He & Hl & Hr).
    destruct (Lehmer64Fast.draws k (Lehmer64Fast.Advance e)) as [xs e2].
    cbn [fst snd length] in *. repeat split.
    + rewrite He, Nat2N.inj_succ, <- N.add_1_l, Discard_add.
      reflexivity.
    + now rewrite Hl.
    + constructor; [|exact Hr].
      apply top_half_range, Advance_range.
Qed.

(** X1.  [Discard(count)] is a jump: it leaves the state times the
    [count]-th power of the multiplier modulo [2^128], which is where
    [count] draws leave the engine; jumps add up, and a jump by 0 changes
    nothing. *)
Theorem Discard_jumps (count : N) (e : Lehmer64Fast.t) :
  0 <= Lehmer64Fast.state_ e < 2 ^ 128 ->
  Lehmer64Fast.state_ (Lehmer64Fast.Discard count e)
  = (Lehmer64Fast.state_ e * 0xda942042e4dd58b5 ^ Z.of_N count) mod 2 ^ 128
  /\ Lehmer64Fast.Discard count e
     = snd (Lehmer64Fast.draws (N.to_nat count) e)
  /\ (forall c2,
        Lehmer64Fast.Discard (count + c2) e
        = Lehmer64Fast.Discard c2 (Lehmer64Fast.Discard count e))
  /\ Lehmer64Fast.Discard 0 e = e.
Proof.
  intros Hwf. split; [|split; [|split]].
  - apply Discard_state, Hwf.
  - destruct (draws_engine (N.to_nat count) e) as [-> _].
    now rewrite N2Nat.id.
  - intros c2. apply Discard_add.
  - reflexivity.
Qed.

Lemma Discard_jumps_witness :
  Lehmer64Fast.state_ (Lehmer64Fast.Discard 5 Lehmer64Fast.new_default)
  = (Lehmer64Fast.state_ Lehmer64Fast.new_default
     * 0xda942042e4dd58b5 ^ Z.of_N 5) mod 2 ^ 128
  /\ Lehmer64Fast.Discard 5 Lehmer64Fast.new_default
     = snd (Lehmer64Fast.draws (N.to_nat 5) Lehmer64Fast.new_default)
  /\ (forall c2,
        Lehmer64Fast.Discard (5 + c2) Lehmer64Fast.new_default
        = Lehmer64Fast.Discard c2
            (Lehmer64Fast.Discard 5 Lehmer64Fast.new_default))
  /\ Lehmer64Fast.Discard 0 Lehmer64Fast.new_default
     = Lehmer64Fast.new_default.
Proof.
  apply (Discard_jumps 5 Lehmer64Fast.new_default). vm_compute.
  split; [discriminate | reflexivity].
Defined.

(** X2.  The engine merges no two states: engines with 128-bit states
    that agree after one step, after one draw or after a jump by the same
    count agreed before it, and [operator==] gives the same answer after
    a step as before it. *)
Theorem Advance_injective (e1 e2 : Lehmer64Fast.t) :
  0 <= Lehmer64Fast.state_ e1 < 2 ^ 128 ->
  0 <= Lehmer64Fast.state_ e2 < 2 ^ 128 ->
  (Lehmer64Fast.Advance e1 = Lehmer64Fast.Advance e2 -> e1 = e2)
  /\ (snd (Lehmer64Fast.call e1) = snd (Lehmer64Fast.call e2) -> e1 = e2)
  /\ (forall count,
        Lehmer64Fast.Discard count e1 = Lehmer64Fast.Discard count e2 ->
        e1 = e2)
  /\ Lehmer64Fast.eqb (Lehmer64Fast.Advance e1) (Lehmer64Fast.Advance e2)
     = Lehmer64Fast.eqb e1 e2.
Proof.
  assert (Hinj : forall a b,
             0 <= Lehmer64Fast.state_ a < 2 ^ 128 ->
             0 <= Lehmer64Fast.state_ b < 2 ^ 128 ->
             Lehmer64Fast.Advance a = Lehmer64Fast.Advance b -> a = b).
  { intros [s1] [s2] H1 H2 H. apply (f_equal Lehmer64Fast.state_) in H.
    rewrite !Advance_state in H.
    change 0xda942042e4dd58b5 with Lehmer64Fast.MCG_MULT in H.
    cbn [Lehmer64Fast.state_] in *. f_equal.
    assert (Hd : (2 ^ Z.of_nat 128 | Lehmer64Fast.MCG_MULT * (s1 - s2))).
    { change (2 ^ Z.of_nat 128) with (2 ^ 128).
      exists (s1 * Lehmer64Fast.MCG_MULT / 2 ^ 128
              - s2 * Lehmer64Fast.MCG_MULT / 2 ^ 128).
      pose proof (Z.div_mod (s1 * Lehmer64Fast.MCG_MULT) (2 ^ 128)
                    ltac:(lia)).
      pose proof (Z.div_mod (s2 * Lehmer64Fast.MCG_MULT) (2 ^ 128)
                    ltac:(lia)).
      lia. }
    apply pow2_divide_odd_mul in Hd; [|reflexivity].
    destruct Hd as [z Hz]. change (2 ^ Z.of_nat 128) with (2 ^ 128) in Hz.
    lia. }
  assert (Hwf : forall count e,
             0 <= Lehmer64Fast.state_ e < 2 ^ 128 ->
             0 <= Lehmer64Fast.state_ (Lehmer64Fast.Discard count e)
             < 2 ^ 128).
  { intros count e He. destruct count as [|p] using N.peano_ind;
      [exact He | rewrite Discard_succ; apply Advance_range]. }
  intros H1 H2. split; [apply Hinj; assumption|].
  split; [rewrite !call_spec; apply Hinj; assumption|]. split.
  - intros count. induction count as [|count IH] using N.peano_ind.
    + now rewrite !Discard_zero.
    + rewrite !Discard_succ. intros H. apply IH, Hinj; auto.
  - unfold Lehmer64Fast.eqb.
    destruct (Z.eqb_spec (Lehmer64Fast.state_ e1) (Lehmer64Fast.state_ e2))
      as [Heq|Hne].
    + apply Z.eqb_eq. rewrite !Advance_state. now rewrite Heq.
    + apply Z.eqb_neq. intros Heq. apply Hne. f_equal.
      apply Hinj; [assumption | assumption |].
      destruct (Lehmer64Fast.Advance e1), (Lehmer64Fast.Advance e2).
      cbn [Lehmer64Fast.state_] in Heq. now rewrite Heq.
Qed.

Lemma Advance_injective_witness :
  (Lehmer64Fast.Advance Lehmer64Fast.new_default
   = Lehmer64Fast.Advance (Lehmer64Fast.new 5) ->
   Lehmer64Fast.new_default = Lehmer64Fast.new 5)
  /\ (snd (Lehmer64Fast.call Lehmer64Fast.new_default)
      = snd (Lehmer64Fast.call (Lehmer64Fast.new 5)) ->
      Lehmer64Fast.new_default = Lehmer64Fast.new 5)
  /\ (forall count,
        Lehmer64Fast.Discard count Lehmer64Fast.new_default
        = Lehmer64Fast.Discard count (Lehmer64Fast.new 5) ->
        Lehmer64Fast.new_default = Lehmer64Fast.new 5)
  /\ Lehmer64Fast.eqb (Lehmer64Fast.Advance Lehmer64Fast.new_default)
       (Lehmer64Fast.Advance (Lehmer64Fast.new 5))
     = Lehmer64Fast.eqb Lehmer64Fast.new_default (Lehmer64Fast.new 5).
Proof.
  apply (Advance_injective Lehmer64Fast.new_default (Lehmer64Fast.new 5));
    vm_compute; split; (discriminate || reflexivity).
Defined.

(** Every positive number is a power of two times an odd number. *)
Lemma pos_pow2_odd (p : positive) :
  exists (j : nat) (m : Z), 0 <= m /\ Z.pos p = 2 ^ Z.of_nat j * (2 * m + 1).
Proof.
  induction p as [p _|p (j & m & Hm & Hp)|].
  - exists O, (Z.pos p). split; [lia|].
    change (2 ^ Z.of_nat 0) with 1. lia.
  - exists (S j), m. split; [exact Hm|].
    rewrite Nat2Z.inj_succ, Z.pow_succ_r by lia. lia.
  - exists O, 0. split; [lia | reflexivity].
Qed.

(** A power of [1 + P u]: one, plus [P] times the exponent times [u], plus
    a multiple of [P^2]. *)
Lemma pow_one_plus (P u : Z) (m : nat) :
  exists w, (1 + P * u) ^ Z.of_nat m = 1 + P * (Z.of_nat m * u + P * w).
Proof.
  induction m as [|m [w IH]].
  - exists 0. change (Z.of_nat 0) with 0. rewrite Z.pow_0_r. ring.
  - rewrite Nat2Z.inj_succ, Z.pow_succ_r, IH by lia.
    exists (w + u * (Z.of_nat m * u + P * w)). ring.
Qed.

(** A positive power of the multiplier is one plus [2^(j+2)] times an odd
    number, [2^j] being the power of two in the exponent. *)
Lemma MCG_MULT_pow_shape (p : positive) :
  exists (j : nat) (m w : Z),
    0 <= m /\ Z.pos p = 2 ^ Z.of_nat j * (2 * m + 1)
    /\ Lehmer64Fast.MCG_MULT ^ Z.pos p
       = 1 + 4 * 2 ^ Z.of_nat j * (2 * w + 1).
Proof.
  destruct (pos_pow2_odd p) as (j & m & Hm & Hp).
  destruct (MCG_MULT_pow_pow2 j) as [c Hc].
  set (Q := 2 ^ Z.of_nat j) in *.
  assert (HQ : 0 < Q) by (apply Z.pow_pos_nonneg; lia).
  destruct (pow_one_plus (4 * Q) (1 + 2 * c) (Z.to_nat (2 * m + 1)))
    as [w Hw].
  rewrite Z2Nat.id in Hw by lia.
  exists j, m, (m + c + 2 * m * c + 2 * Q * w).
  split; [exact Hm|]. split; [exact Hp|].
  rewrite Hp, Z.pow_mul_r, Hc by lia.
  replace (1 + 4 * Q + c * (8 * Q)) with (1 + 4 * Q * (1 + 2 * c)) by ring.
  rewrite Hw. fold Q. ring.
Qed.

(** The multiplier has order [2^126] modulo [2^128]. *)
Lemma MCG_MULT_order (n : Z) :
  0 <= n ->
  ((2 ^ 128 | Lehmer64Fast.MCG_MULT ^ n - 1) <-> (2 ^ 126 | n)).
Proof.
  intros Hn. split.
  - destruct n as [|p|p]; [exists 0; reflexivity | | lia].
    intros Hd.
    destruct (MCG_MULT_pow_shape p) as (j & m & w & Hm & Hp & Hpow).
    rewrite Hpow in Hd.
    destruct (Nat.le_gt_cases 126 j) as [Hj|Hj].
    + exists (2 ^ (Z.of_nat j - 126) * (2 * m + 1)). rewrite Hp.
      replace (Z.of_nat j) with (Z.of_nat j - 126 + 126) at 1 by lia.
      rewrite Z.pow_add_r by lia. ring.
    + exfalso. destruct Hd as [z Hz].
      set (Q := 2 ^ Z.of_nat j) in *.
      assert (HQ : 0 < Q) by (apply Z.pow_pos_nonneg; lia).
      assert (H128 : 2 ^ 128 = 4 * Q * (2 * 2 ^ (125 - Z.of_nat j))).
      { unfold Q. rewrite <- (Z.pow_succ_r 2 (125 - Z.of_nat j)) by lia.
        change 4 with (2 ^ 2).
        rewrite <- !Z.pow_add_r by lia. f_equal. lia. }
      rewrite H128 in Hz.
      assert (2 * w + 1 = 2 * (z * 2 ^ (125 - Z.of_nat j))); [|lia].
      apply (Z.mul_reg_l _ _ (4 * Q)); [lia|].
      replace (1 + 4 * Q * (2 * w + 1) - 1) with (4 * Q * (2 * w + 1)) in Hz
        by ring.
      rewrite Hz. ring.
  - intros [q ->].
    assert (Hq : 0 <= q) by lia.
    rewrite Z.mul_comm, Z.pow_mul_r by lia.
    destruct (MCG_MULT_pow_pow2 126) as [c Hc].
    change (2 ^ Z.of_nat 126) with (2 ^ 126) in Hc.
    rewrite Hc. clear Hc.
    destruct (pow_one_plus (2 ^ 128) (1 + 2 * c) (Z.to_nat q)) as [w Hw].
    rewrite Z2Nat.id in Hw by exact Hq.
    replace (1 + 4 * 2 ^ 126 + c * (8 * 2 ^ 126))
      with (1 + 2 ^ 128 * (1 + 2 * c)) by ring.
    rewrite Hw. exists (q * (1 + 2 * c) + 2 ^ 128 * w). ring.
Qed.

(** X3.  The period of the engine is [2^126].  From an odd 128-bit state a
    jump by [count] steps comes back to the state exactly when [2^126]
    divides [count]; so no jump by a non-zero [size_t] count, and no run
    of fewer than [2^126] draws, returns to the state it started from. *)
Theorem engine_period (count : N) (e : Lehmer64Fast.t) :
  0 <= Lehmer64Fast.state_ e < 2 ^ 128 ->
  Z.odd (Lehmer64Fast.state_ e) = true ->
  (Lehmer64Fast.Discard count e = e <-> (2 ^ 126 | Z.of_N count))
  /\ ((0 < count < 2 ^ 64)%N -> Lehmer64Fast.Discard count e <> e)
  /\ ((0 < count < 2 ^ 126)%N ->
      snd (Lehmer64Fast.draws (N.to_nat count) e) <> e).
Proof.
  intros Hwf Hodd.
  assert (Hiff : Lehmer64Fast.Discard count e = e
                 <-> (2 ^ 126 | Z.of_N count)).
  { rewrite <- MCG_MULT_order by lia.
    pose proof (Discard_state count e Hwf) as Hs.
    set (a := Lehmer64Fast.MCG_MULT ^ Z.of_N count) in *.
    split.
    - intros He. rewrite He in Hs.
      assert (Hd : (2 ^ Z.of_nat 128 | Lehmer64Fast.state_ e * (a - 1))).
      { change (2 ^ Z.of_nat 128) with (2 ^ 128).
        exists (Lehmer64Fast.state_ e * a / 2 ^ 128).
        pose proof (Z.div_mod (Lehmer64Fast.state_ e * a) (2 ^ 128)
                      ltac:(lia)). lia. }
      apply pow2_divide_odd_mul in Hd; [exact Hd | exact Hodd].
    - intros [z Hz].
      destruct (Lehmer64Fast.Discard count e) as [s'].
      destruct e as [s]. cbn [Lehmer64Fast.state_] in *. f_equal.
      rewrite Hs. replace a with (1 + z * 2 ^ 128) by lia.
      replace (s * (1 + z * 2 ^ 128)) with (s + s * z * 2 ^ 128) by ring.
      rewrite Z.mod_add by lia. apply Z.mod_small, Hwf. }
  split; [exact Hiff|]. split.
  - intros Hc He. apply Hiff in He. destruct He as [z Hz].
    assert (Z.of_N count < 2 ^ 64) by lia. lia.
  - intros Hc. destruct (draws_engine (N.to_nat count) e) as [-> _].
    rewrite N2Nat.id. intros He. apply Hiff in He. destruct He as [z Hz].
    assert (Z.of_N count < 2 ^ 126) by lia. lia.
Qed.

Lemma engine_period_witness :
  (Lehmer64Fast.Discard 3 Lehmer64Fast.new_default = Lehmer64Fast.new_default
   <-> (2 ^ 126 | Z.of_N 3))
  /\ ((0 < 3 < 2 ^ 64)%N ->
      Lehmer64Fast.Discard 3 Lehmer64Fast.new_default
      <> Lehmer64Fast.new_default)
  /\ ((0 < 3 < 2 ^ 126)%N ->
      snd (Lehmer64Fast.draws (N.to_nat 3) Lehmer64Fast.new_default)
      <> Lehmer64Fast.new_default).
Proof.
  apply (engine_period 3 Lehmer64Fast.new_default).
  - vm_compute. split; [discriminate | reflexivity].
  - reflexivity.
Defined.

(** ** The engine: seeding *)

Lemma lor_one (x : Z) : Z.lor x 1 = x + 1 - x mod 2.
Proof.
  pose proof (Z.add_lor_land x 1) as H.
  change 1 with (Z.ones 1) in H at 2.
  rewrite Z.land_ones in H by lia. change (2 ^ 1) with 2 in H. lia.
Qed.

(** X4.  [Seed] stores the four seed words as the four 32-bit digits of
    the state, the first word lowest and with its bit 0 set; so two seeds
    give the same engine exactly when they agree in every bit but bit 0
    of the first word.  (Byte order as in [memcpy_seed].) *)
Theorem Seed_keeps_all_but_lowest_bit
  (e e' : Lehmer64Fast.t) (s0 s1 s2 s3 t0 t1 t2 t3 : Z) :
  0 <= s0 < 2 ^ 32 -> 0 <= s1 < 2 ^ 32 ->
  0 <= s2 < 2 ^ 32 -> 0 <= s3 < 2 ^ 32 ->
  0 <= t0 < 2 ^ 32 -> 0 <= t1 < 2 ^ 32 ->
  0 <= t2 < 2 ^ 32 -> 0 <= t3 < 2 ^ 32 ->
  Lehmer64Fast.GetState (Lehmer64Fast.Seed e (s0, s1, s2, s3))
  = Z.lor s0 1 + s1 * 2 ^ 32 + s2 * 2 ^ 64 + s3 * 2 ^ 96
  /\ (Lehmer64Fast.Seed e (s0, s1, s2, s3)
      = Lehmer64Fast.Seed e' (t0, t1, t2, t3)
      <-> Z.lor s0 1 = Z.lor t0 1 /\ s1 = t1 /\ s2 = t2 /\ s3 = t3).
Proof.
  intros Hs0 Hs1 Hs2 Hs3 Ht0 Ht1 Ht2 Ht3.
  assert (Hstate : forall e a0 a1 a2 a3,
             0 <= a0 < 2 ^ 32 -> 0 <= a1 < 2 ^ 32 ->
             0 <= a2 < 2 ^ 32 -> 0 <= a3 < 2 ^ 32 ->
             Lehmer64Fast.state_ (Lehmer64Fast.Seed e (a0, a1, a2, a3))
             = Z.lor a0 1 + a1 * 2 ^ 32 + a2 * 2 ^ 64 + a3 * 2 ^ 96).
  { intros e0 a0 a1 a2 a3 H0 H1 H2 H3.
    unfold Lehmer64Fast.Seed, Lehmer64Fast.SetState,
      Lehmer64Fast.memcpy_seed.
    cbn [Lehmer64Fast.state_]. change Lehmer64Fast.STYPE_BITS with 128.
    rewrite !(wrap_small 32) by assumption.
    rewrite (wrap_small 128) by lia.
    rewrite !lor_one.
    replace ((a0 + a1 * 2 ^ 32 + a2 * 2 ^ 64 + a3 * 2 ^ 96) mod 2)
      with (a0 mod 2); [lia|].
    replace (a0 + a1 * 2 ^ 32 + a2 * 2 ^ 64 + a3 * 2 ^ 96)
      with (a0 + (a1 * 2 ^ 31 + a2 * 2 ^ 63 + a3 * 2 ^ 95) * 2) by lia.
    now rewrite Z.mod_add by lia. }
  split; [apply Hstate; assumption|].
  assert (Hl : forall x, 0 <= x < 2 ^ 32 -> 0 <= Z.lor x 1 < 2 ^ 32).
  { intros x Hx. rewrite lor_one.
    pose proof (Z.mod_pos_bound x 2 ltac:(lia)).
    pose proof (Z.div_mod x 2 ltac:(lia)). lia. }
  pose proof (Hl s0 Hs0) as Hls. pose proof (Hl t0 Ht0) as Hlt.
  split.
  - intros Heq. apply (f_equal Lehmer64Fast.state_) in Heq.
    rewrite !Hstate in Heq by assumption. lia.
  - intros (Hlow & -> & -> & ->).
    destruct (Lehmer64Fast.Seed e (s0, t1, t2, t3)) as [x] eqn:E1.
    destruct (Lehmer64Fast.Seed e' (t0, t1, t2, t3)) as [y] eqn:E2.
    apply (f_equal Lehmer64Fast.state_) in E1, E2.
    rewrite Hstate in E1, E2 by assumption.
    cbn [Lehmer64Fast.state_] in *. f_equal. lia.
Qed.

Lemma Seed_keeps_all_but_lowest_bit_witness :
  Lehmer64Fast.GetState
    (Lehmer64Fast.Seed Lehmer64Fast.new_default (6, 1, 2, 3))
  = Z.lor 6 1 + 1 * 2 ^ 32 + 2 * 2 ^ 64 + 3 * 2 ^ 96
  /\ (Lehmer64Fast.Seed Lehmer64Fast.new_default (6, 1, 2, 3)
      = Lehmer64Fast.Seed Lehmer64Fast.uninitialised (7, 1, 2, 3)
      <-> Z.lor 6 1 = Z.lor 7 1 /\ 1 = 1 /\ 2 = 2 /\ 3 = 3).
Proof.
  apply (Seed_keeps_all_but_lowest_bit
           Lehmer64Fast.new_default Lehmer64Fast.uninitialised
           6 1 2 3 7 1 2 3); lia.
Defined.

(** ** [Random]: the derived integers *)

(** X5.  [bits(b)] with [b] from 1 to 64 advances the engine once and
    returns the top [b] bits of the new 128-bit state, a value below
    [2^b]; [bits(64)] is [bits()] and [u32()] is [bits(32)]. *)
Theorem bits_b_top_bits (b : Z) (r : Random.t) :
  1 <= b <= 64 ->
  Random.bits_b b r
  = (Lehmer64Fast.state_ (Lehmer64Fast.Advance r) / 2 ^ (128 - b),
     Lehmer64Fast.Advance r)
  /\ 0 <= fst (Random.bits_b b r) < 2 ^ b
  /\ Random.bits_b 64 r = Random.bits r
  /\ Random.u32 r = Random.bits_b 32 r.
Proof.
  intros Hb.
  assert (Hval : forall c, 1 <= c <= 64 ->
             Random.bits_b c r
             = (Lehmer64Fast.state_ (Lehmer64Fast.Advance r) / 2 ^ (128 - c),
                Lehmer64Fast.Advance r)).
  { intros c Hc. unfold Random.bits_b, Random.bits. rewrite call_spec.
    f_equal. rewrite Z.shiftr_div_pow2, Z.div_div by lia.
    rewrite <- Z.pow_add_r by lia. do 2 f_equal. lia. }
  pose proof (Advance_range r) as Hs.
  split; [apply Hval, Hb|]. split; [|split].
  - rewrite Hval by exact Hb. cbn [fst].
    assert (Hp : 0 < 2 ^ (128 - b)) by (apply Z.pow_pos_nonneg; lia).
    split; [apply Z.div_pos; lia|].
    apply Z.div_lt_upper_bound; [lia|].
    rewrite <- Z.pow_add_r by lia.
    replace (128 - b + b) with 128 by lia. lia.
  - rewrite Hval by lia. unfold Random.bits. now rewrite call_spec.
  - rewrite Hval by lia. unfold Random.u32, Random.bits, random_u32.
    rewrite call_spec. f_equal.
    pose proof (top_half_range _ Hs) as Hx.
    rewrite Z.shiftr_div_pow2, Z.div_div by lia.
    apply wrap_small. split; [apply Z.div_pos; lia|].
    apply Z.div_lt_upper_bound; lia.
Qed.

Lemma bits_b_top_bits_witness :
  Random.bits_b 7 Lehmer64Fast.new_default
  = (Lehmer64Fast.state_ (Lehmer64Fast.Advance Lehmer64Fast.new_default)
     / 2 ^ (128 - 7),
     Lehmer64Fast.Advance Lehmer64Fast.new_default)
  /\ 0 <= fst (Random.bits_b 7 Lehmer64Fast.new_default) < 2 ^ 7
  /\ Random.bits_b 64 Lehmer64Fast.new_default
     = Random.bits Lehmer64Fast.new_default
  /\ Random.u32 Lehmer64Fast.new_default
     = Random.bits_b 32 Lehmer64Fast.new_default.
Proof. apply (bits_b_top_bits 7 Lehmer64Fast.new_default). lia. Defined.

(** X6.  [u32_pair()] takes one draw apart: its two components are the
    low and the high 32 bits of the value [bits()] returns from the same
    engine, they put together give that value back, the second component
    is what [u32()] returns, and the engine has advanced once. *)
Theorem u32_pair_halves (r : Random.t) :
  let '(lo, hi, r') := Random.u32_pair r in
  r' = Lehmer64Fast.Advance r
  /\ lo + hi * 2 ^ 32 = fst (Random.bits r)
  /\ 0 <= lo < 2 ^ 32 /\ 0 <= hi < 2 ^ 32
  /\ hi = fst (Random.u32 r)
  /\ lo = fst (Random.bits r) mod 2 ^ 32.
Proof.
  unfold Random.u32_pair, Random.u32, Random.bits, random_u32_pair,
    random_u32.
  rewrite call_spec. cbn [fst].
  set (x := Lehmer64Fast.state_ (Lehmer64Fast.Advance r) / 2 ^ 64).
  assert (Hx : 0 <= x < 2 ^ 64) by apply top_half_range, Advance_range.
  rewrite Z.shiftr_div_pow2 by lia.
  assert (Hhi : 0 <= x / 2 ^ 32 < 2 ^ 32).
  { split; [apply Z.div_pos; lia | apply Z.div_lt_upper_bound; lia]. }
  rewrite (wrap_small 32 (x / 2 ^ 32)) by exact Hhi.
  pose proof (wrap_range 32 x ltac:(lia)) as Hlo.
  repeat split; try lia.
  unfold wrap. pose proof (Z.div_mod x (2 ^ 32) ltac:(lia)). lia.
Qed.

(** ** The bounded draw: what each draw decides *)

Section random_u64_range_draws.

Context {St : Type} (get : St -> Z * St).

(** The decision about one draw [x]: with [l] the low half of
    [x * range], the draw is returned when [l] is not below
    [2^64 mod range], whichever of the two tests of the code sees it. *)
Lemma random_u64_range_step fuel range s :
  0 < range < 2 ^ 64 ->
  let x := wrap 64 (fst (get s)) in
  (2 ^ 64 mod range <= (x * range) mod 2 ^ 64 ->
   random_u64_range get fuel range s
   = Returns ((x * range) / 2 ^ 64, snd (get s)))
  /\ ((x * range) mod 2 ^ 64 < 2 ^ 64 mod range ->
      random_u64_range get (S fuel) range s
      = random_u64_range get fuel range (snd (get s))
      /\ random_u64_range get O range s = OutOfFuel).
Proof.
  intros Hr x.
  pose proof (Z.mod_pos_bound (2 ^ 64) range ltac:(lia)) as Ht.
  assert (Hprod : forall y,
             wrap 128 (wrap 128 (wrap 64 y) * wrap 128 range)
             = wrap 64 y * range).
  { intros y. pose proof (wrap_range 64 y ltac:(lia)) as Hy.
    rewrite (wrap_small 128 (wrap 64 y)), (wrap_small 128 range) by lia.
    apply wrap_small. nia. }
  assert (Hhigh : forall y,
             wrap 64 (Z.shiftr (wrap 64 y * range) 64)
             = (wrap 64 y * range) / 2 ^ 64).
  { intros y. pose proof (wrap_range 64 y ltac:(lia)) as Hy.
    rewrite Z.shiftr_div_pow2 by lia. apply wrap_small.
    pose proof (high_half_lt (wrap 64 y) range Hy ltac:(lia)). lia. }
  subst x. unfold random_u64_range.
  destruct (get s) as [x0 s1] eqn:Hget. cbn [fst snd] in *. cbv zeta.
  rewrite Hprod.
  change (wrap 64 (wrap 64 x0 * range))
    with ((wrap 64 x0 * range) mod 2 ^ 64).
  set (l := (wrap 64 x0 * range) mod 2 ^ 64).
  split.
  - intros Hacc.
    destruct (Z.ltb_spec l range) as [Hlt|Hge].
    + rewrite rejection_threshold_value by lia.
      rewrite redraw_unfold.
      destruct (Z.ltb_spec l (2 ^ 64 mod range)); [lia|].
      cbv beta iota. now rewrite Hhigh.
    + now rewrite Hhigh.
  - intros Hrej.
    destruct (Z.ltb_spec l range) as [Hlt|Hge]; [|lia].
    rewrite rejection_threshold_value by lia.
    split.
    + rewrite redraw_unfold.
      destruct (Z.ltb_spec l (2 ^ 64 mod range)); [|lia].
      cbv zeta. destruct (get s1) as [x1 s2] eqn:Hget1. cbn [fst snd].
      rewrite Hprod. set (m1 := wrap 64 x1 * range).
      destruct (Z.ltb_spec (wrap 64 m1) range) as [Hlt1|Hge1].
      * reflexivity.
      * rewrite redraw_unfold.
        destruct (Z.ltb_spec (wrap 64 m1) (2 ^ 64 mod range)); [lia|].
        reflexivity.
    + rewrite redraw_unfold.
      destruct (Z.ltb_spec l (2 ^ 64 mod range)); [reflexivity | lia].
Qed.

End random_u64_range_draws.

(** X7.  The bounded draw is rejection sampling with one fixed test.
    With [l] the low 64 bits of [x * range] for the value [x] of a draw:
    when [l >= 2^64 mod range] the function returns the high 64 bits of
    the product and has made that one draw; when [l < 2^64 mod range] it
    goes on exactly as a fresh call on the callback after the draw. *)
Theorem random_u64_range_rejection_sampling
  (St : Type) (get : St -> Z * St) (fuel : nat) (range : Z) (s : St) :
  0 < range < 2 ^ 64 ->
  (2 ^ 64 mod range <= (wrap 64 (fst (get s)) * range) mod 2 ^ 64 ->
   random_u64_range get fuel range s
   = Returns ((wrap 64 (fst (get s)) * range) / 2 ^ 64, snd (get s)))
  /\ ((wrap 64 (fst (get s)) * range) mod 2 ^ 64 < 2 ^ 64 mod range ->
      random_u64_range get (S fuel) range s
      = random_u64_range get fuel range (snd (get s))
      /\ random_u64_range get O range s = OutOfFuel).
Proof. intros Hr. exact (random_u64_range_step get fuel range s Hr). Qed.

Lemma random_u64_range_rejection_sampling_witness :
  (2 ^ 64 mod 3 <= (wrap 64 (fst (hd 0 [0; 5], tl [0; 5])) * 3) mod 2 ^ 64 ->
   random_u64_range (fun s : list Z => (hd 0 s, tl s)) 1 3 [0; 5]
   = Returns ((wrap 64 (fst (hd 0 [0; 5], tl [0; 5])) * 3) / 2 ^ 64,
              snd (hd 0 [0; 5], tl [0; 5])))
  /\ ((wrap 64 (fst (hd 0 [0; 5], tl [0; 5])) * 3) mod 2 ^ 64 < 2 ^ 64 mod 3 ->
      random_u64_range (fun s : list Z => (hd 0 s, tl s)) 2 3 [0; 5]
      = random_u64_range (fun s : list Z => (hd 0 s, tl s)) 1 3
          (snd (hd 0 [0; 5], tl [0; 5]))
      /\ random_u64_range (fun s : list Z => (hd 0 s, tl s)) O 3 [0; 5]
         = OutOfFuel).
Proof.
  apply (random_u64_range_rejection_sampling
           (list Z) (fun s : list Z => (hd 0 s, tl s)) 1 3 [0; 5]).
  lia.
Defined.

(** X8.  For a range that is a power of two, [2^j] with [j] from 0 to 63,
    nothing is ever rejected: whatever the callback and the fuel, the
    function makes one draw and returns its top [j] bits. *)
Theorem random_u64_range_power_of_two
  (St : Type) (get : St -> Z * St) (fuel : nat) (j : Z) (s : St) :
  0 <= j <= 63 ->
  random_u64_range get fuel (2 ^ j) s
  = Returns (wrap 64 (fst (get s)) / 2 ^ (64 - j), snd (get s))
  /\ rejection_threshold (2 ^ j) = Returns 0.
Proof.
  intros Hj.
  assert (Hp : 0 < 2 ^ j) by (apply Z.pow_pos_nonneg; lia).
  assert (Hlt : 2 ^ j < 2 ^ 64) by (apply Z.pow_lt_mono_r; lia).
  assert (H64 : 2 ^ 64 = 2 ^ (64 - j) * 2 ^ j).
  { rewrite <- Z.pow_add_r by lia. f_equal. lia. }
  assert (Ht : 2 ^ 64 mod 2 ^ j = 0).
  { rewrite H64 at 1. apply Z.mod_mul. lia. }
  split.
  - destruct (random_u64_range_step get fuel (2 ^ j) s ltac:(lia))
      as [Hacc _].
    rewrite Hacc.
    + do 2 f_equal. rewrite H64 at 1.
      apply Z.div_mul_cancel_r; lia.
    + rewrite Ht. apply Z.mod_pos_bound. lia.
  - rewrite rejection_threshold_value by lia. now rewrite Ht.
Qed.

Lemma random_u64_range_power_of_two_witness :
  random_u64_range (fun s : list Z => (hd 0 s, tl s)) 0 (2 ^ 4) [2 ^ 63 + 9]
  = Returns (wrap 64 (fst (hd 0 [2 ^ 63 + 9], tl [2 ^ 63 + 9]))
             / 2 ^ (64 - 4),
             snd (hd 0 [2 ^ 63 + 9], tl [2 ^ 63 + 9]))
  /\ rejection_threshold (2 ^ 4) = Returns 0.
Proof.
  apply (random_u64_range_power_of_two
           (list Z) (fun s : list Z => (hd 0 s, tl s)) 0 4 [2 ^ 63 + 9]).
  lia.
Defined.

(** The draws that one call returns as [r]: with [K] for [2^64], they are
    the [K / range] numbers from the least [x] with
    [x * range >= r * K + K mod range] on. *)
Lemma accepted_draws_interval (K range r x : Z) :
  0 < range < K -> 0 <= r < range ->
  let lo := (r * K + K mod range + range - 1) / range in
  (0 <= lo /\ lo + K / range <= K)
  /\ ((0 <= x < K /\ (x * range) / K = r /\ K mod range <= (x * range) mod K)
      <-> lo <= x < lo + K / range).
Proof.
  intros Hr Hrr lo.
  pose proof (Z.mod_pos_bound K range ltac:(lia)) as Ht.
  pose proof (Z.div_mod K range ltac:(lia)) as HK.
  set (t := K mod range) in *. set (q := K / range) in *.
  pose proof (Z.div_mod (r * K + t + range - 1) range ltac:(lia)) as Hlo.
  pose proof (Z.mod_pos_bound (r * K + t + range - 1) range ltac:(lia))
    as Hrem.
  fold lo in Hlo.
  set (rem := (r * K + t + range - 1) mod range) in *.
  assert (Hq : 1 <= q) by (apply Z.div_le_lower_bound; lia).
  assert (Hlo0 : 0 <= lo) by (apply Z.div_pos; nia).
  assert (Hup : lo + q <= K) by nia.
  split; [split; assumption|].
  split.
  - intros (Hx & Hdiv & Hmod).
    pose proof (Z.div_mod (x * range) K ltac:(lia)) as Hxr.
    pose proof (Z.mod_pos_bound (x * range) K ltac:(lia)) as Hl.
    rewrite Hdiv in Hxr. split.
    + destruct (Z.le_gt_cases lo x) as [|Hgt]; [assumption|exfalso].
      assert (x * range <= (lo - 1) * range)
        by (apply Z.mul_le_mono_nonneg_r; lia).
      lia.
    + destruct (Z.lt_ge_cases x (lo + q)) as [|Hge]; [assumption|exfalso].
      assert ((lo + q) * range <= x * range)
        by (apply Z.mul_le_mono_nonneg_r; lia).
      lia.
  - intros Hx.
    assert (lo * range <= x * range)
      by (apply Z.mul_le_mono_nonneg_r; lia).
    assert (x * range <= (lo + q - 1) * range)
      by (apply Z.mul_le_mono_nonneg_r; lia).
    assert (Hl : 0 <= x * range - r * K < K) by nia.
    assert (Hdiv : (x * range) / K = r).
    { symmetry. apply (Z.div_unique _ _ _ (x * range - r * K)); lia. }
    assert (Hmod : (x * range) mod K = x * range - r * K).
    { symmetry. apply (Z.mod_unique _ _ r); lia. }
    rewrite Hmod. repeat split; try lia; nia.
Qed.

(** X9.  The bounded draw has no bias.  For every range from 1 to
    [2^64 - 1] and every [r] below it, the 64-bit values of a draw on
    which a call returns [r] at once are [2^64 / range] consecutive
    numbers: the same count for every [r].  (Fuel 0 lets the call return
    only on its first draw.) *)
Theorem random_u64_range_unbiased (range r : Z) :
  0 < range < 2 ^ 64 -> 0 <= r < range ->
  exists lo,
    0 <= lo /\ lo + 2 ^ 64 / range <= 2 ^ 64
    /\ forall (St : Type) (get : St -> Z * St) (s : St),
        random_u64_range get O range s = Returns (r, snd (get s))
        <-> lo <= wrap 64 (fst (get s)) < lo + 2 ^ 64 / range.
Proof.
  intros Hr Hrr.
  exists ((r * 2 ^ 64 + 2 ^ 64 mod range + range - 1) / range).
  destruct (accepted_draws_interval (2 ^ 64) range r 0 Hr Hrr)
    as [[Hlo Hup] _].
  split; [exact Hlo|]. split; [exact Hup|].
  intros St get s.
  pose proof (wrap_range 64 (fst (get s)) ltac:(lia)) as Hx.
  destruct (accepted_draws_interval (2 ^ 64) range r
              (wrap 64 (fst (get s))) Hr Hrr) as [_ Hiff].
  rewrite <- Hiff.
  destruct (random_u64_range_step get O range s Hr) as [Hacc Hrej].
  destruct (Z.le_gt_cases (2 ^ 64 mod range)
              ((wrap 64 (fst (get s)) * range) mod 2 ^ 64)) as [Hle|Hgt].
  - rewrite (Hacc Hle). split.
    + intros [= Heq]. auto.
    + intros (_ & -> & _). reflexivity.
  - destruct (Hrej Hgt) as [_ ->]. split; [discriminate | lia].
Qed.

Lemma random_u64_range_unbiased_witness :
  exists lo,
    0 <= lo /\ lo + 2 ^ 64 / 3 <= 2 ^ 64
    /\ forall (St : Type) (get : St -> Z * St) (s : St),
        random_u64_range get O 3 s = Returns (2, snd (get s))
        <-> lo <= wrap 64 (fst (get s)) < lo + 2 ^ 64 / 3.
Proof. apply (random_u64_range_unbiased 3 2); lia. Defined.

(** ** The multilinear hash: inputs, outputs and the accumulator *)

Section hash_impl_t_more.

Variables INC INIT : Z.

Lemma hash_input_truncates us :
  forall sum w,
    hash_input INC (map (wrap 32) us) sum w = hash_input INC us sum w.
Proof.
  induction us as [|u us IH]; intros sum w; [reflexivity|].
  cbn [map hash_input]. rewrite wrap_idem by lia.
  destruct (next_num INC w) as [n w']. apply IH.
Qed.

Lemma hash_slots_truncates us len :
  forall w, hash_slots INC (map (wrap 32) us) len w = hash_slots INC us len w.
Proof.
  induction len as [|len IH]; intros w; [reflexivity|].
  cbn [hash_slots]. destruct (next_num INC w) as [sum w1].
  rewrite hash_input_truncates.
  destruct (hash_input INC us sum w1) as [sum2 w2].
  destruct (next_num INC w2) as [n w3]. now rewrite IH.
Qed.

Lemma hash_slots_words us len :
  forall w,
    length (hash_slots INC us len w) = len
    /\ Forall (fun x => 0 <= x < 2 ^ 32) (hash_slots INC us len w).
Proof.
  induction len as [|len IH]; intros w; [split; [reflexivity|constructor]|].
  cbn [hash_slots]. destruct (next_num INC w) as [sum w1].
  destruct (hash_input INC us sum w1) as [sum2 w2].
  destruct (next_num INC w2) as [n w3].
  destruct (IH w3) as [Hl Hf]. cbn [length]. split; [now rewrite Hl|].
  constructor; [apply wrap_range; lia | exact Hf].
Qed.

(** The slots come one after the other from one accumulator: the first
    [len] of [len + more] slots are the [len] slots. *)
Lemma hash_slots_prefix us len more :
  forall w,
    take len (hash_slots INC us (len + more) w) = hash_slots INC us len w.
Proof.
  induction len as [|len IH]; intros w; [apply take_0|].
  cbn [Nat.add hash_slots]. destruct (next_num INC w) as [sum w1].
  destruct (hash_input INC us sum w1) as [sum2 w2].
  destruct (next_num INC w2) as [n w3].
  cbn [take]. now rewrite IH.
Qed.

Lemma after_next_num (k : nat) (w : Z) :
  after (next_num INC) k (wrap 64 w) = wrap 64 (w + Z.of_nat k * INC).
Proof.
  revert w. induction k as [|k IH]; intros w.
  - cbn [after]. f_equal. lia.
  - cbn [after next_num snd]. rewrite wrap_add_l, IH. f_equal. lia.
Qed.

Lemma weighted_sum_app (us vs : list Z) :
  forall k,
    weighted_sum INC INIT k (us ++ vs)
    = weighted_sum INC INIT k us
      + weighted_sum INC INIT (k + Z.of_nat (length us)) vs.
Proof.
  induction us as [|u us IH]; intros k.
  - cbn [app weighted_sum length]. change (Z.of_nat 0) with 0.
    now rewrite Z.add_0_r.
  - cbn [app weighted_sum]. rewrite IH, length_cons, Nat2Z.inj_succ.
    replace (k + 1 + Z.of_nat (length us))
      with (k + Z.succ (Z.of_nat (length us))) by lia.
    lia.
Qed.

(** The first slot in closed form, for any input. *)
Lemma hash_first_slot us len :
  nth 0 (hash_impl_t INC INIT us (S len)) 0
  = wrap 64 (accumulator INC INIT 1
             + weighted_sum INC INIT 2 (map (wrap 32) us)
             + accumulator INC INIT (Z.of_nat (length us) + 2)) / 2 ^ 32.
Proof.
  unfold hash_impl_t. rewrite <- hash_slots_truncates.
  assert (H32 : Forall (fun u => 0 <= u < 2 ^ 32) (map (wrap 32) us)).
  { clear. induction us as [|u us IH]; cbn [map]; constructor;
      [apply wrap_range; lia | exact IH]. }
  pose proof (hash_slots_from INC INIT (map (wrap 32) us) (S len) H32 O)
    as H.
  rewrite Z.mul_0_l in H. unfold accumulator in H at 1.
  rewrite Z.mul_0_l, Z.add_0_r in H. rewrite H.
  cbn [seq map nth]. unfold multilinear_slot.
  rewrite length_map. change (Z.of_nat 0) with 0.
  rewrite Z.mul_0_l, Z.mul_1_r.
  replace (0 + 1 + Z.of_nat (length us) + 1)
    with (Z.of_nat (length us) + 2) by lia.
  reflexivity.
Qed.

End hash_impl_t_more.

(** X10.  Whatever the input values, the hash writes exactly [len] words,
    each below [2^32], and it reads only the low 32 bits of each input:
    inputs that agree modulo [2^32] hash alike. *)
Theorem hash_impl_t_words (INC INIT : Z) (us : list Z) (len : nat) :
  length (hash_impl_t INC INIT us len) = len
  /\ Forall (fun x => 0 <= x < 2 ^ 32) (hash_impl_t INC INIT us len)
  /\ hash_impl_t INC INIT (map (wrap 32) us) len
     = hash_impl_t INC INIT us len
  /\ (forall vs, map (wrap 32) vs = map (wrap 32) us ->
                 hash_impl_t INC INIT vs len = hash_impl_t INC INIT us len).
Proof.
  unfold hash_impl_t.
  destruct (hash_slots_words INC us len (wrap 64 INIT)) as [Hl Hf].
  repeat split; auto.
  - apply hash_slots_truncates.
  - intros vs Hvs.
    rewrite <- (hash_slots_truncates INC vs), Hvs.
    apply hash_slots_truncates.
Qed.

(** X11.  Asking for more output extends the output: the first [len]
    words of [len + more] generated words are the [len] generated words,
    for the hash and so for [SeedSeq::Generate]. *)
Theorem hash_impl_t_prefix
  (INC INIT : Z) (us : list Z) (len more : nat) (ss : SeedSeq.t) :
  take len (hash_impl_t INC INIT us (len + more))
  = hash_impl_t INC INIT us len
  /\ take len (SeedSeq.Generate ss (len + more)) = SeedSeq.Generate ss len
  /\ exists rest,
       SeedSeq.Generate ss (len + more) = SeedSeq.Generate ss len ++ rest
       /\ length rest = more.
Proof.
  assert (Hp : forall I J vs,
             take len (hash_impl_t I J vs (len + more))
             = hash_impl_t I J vs len).
  { intros I J vs. unfold hash_impl_t. apply hash_slots_prefix. }
  split; [apply Hp|]. split; [apply Hp|].
  exists (drop len (SeedSeq.Generate ss (len + more))). split.
  - unfold SeedSeq.Generate, hash_implB in *.
    rewrite <- (Hp _ _ (SeedSeq.state_ ss)) at 1.
    symmetry. apply take_drop.
  - rewrite length_drop. unfold SeedSeq.Generate, hash_implB, hash_impl_t.
    destruct (hash_slots_words 0x9e3779b97f4a7c15 (SeedSeq.state_ ss)
                (len + more) (wrap 64 0xdf8b06c40fa44478)) as [-> _].
    lia.
Qed.

(** X12.  The accumulator is a Weyl sequence: after [k] uses it holds the
    start plus [k] times the increment modulo [2^64], and with an odd
    increment (as in both hash instances) two different uses fewer than
    [2^64] apart never see the same value. *)
Theorem next_num_never_repeats (INC w : Z) (k1 k2 : nat) :
  Z.odd INC = true ->
  (k1 < k2)%nat -> Z.of_nat k2 - Z.of_nat k1 < 2 ^ 64 ->
  after (next_num INC) k1 (wrap 64 w) = wrap 64 (w + Z.of_nat k1 * INC)
  /\ after (next_num INC) k2 (wrap 64 w) = wrap 64 (w + Z.of_nat k2 * INC)
  /\ after (next_num INC) k1 (wrap 64 w)
     <> after (next_num INC) k2 (wrap 64 w).
Proof.
  intros Hodd Hlt Hclose.
  split; [apply after_next_num|]. split; [apply after_next_num|].
  rewrite !after_next_num. unfold wrap. intros Heq.
  assert (Hd : (2 ^ Z.of_nat 64 | INC * (Z.of_nat k2 - Z.of_nat k1))).
  { change (2 ^ Z.of_nat 64) with (2 ^ 64).
    exists ((w + Z.of_nat k2 * INC) / 2 ^ 64
            - (w + Z.of_nat k1 * INC) / 2 ^ 64).
    pose proof (Z.div_mod (w + Z.of_nat k1 * INC) (2 ^ 64) ltac:(lia)).
    pose proof (Z.div_mod (w + Z.of_nat k2 * INC) (2 ^ 64) ltac:(lia)).
    lia. }
  apply pow2_divide_odd_mul in Hd; [|exact Hodd].
  destruct Hd as [z Hz]. change (2 ^ Z.of_nat 64) with (2 ^ 64) in Hz.
  lia.
Qed.

Lemma next_num_never_repeats_witness :
  after (next_num 0x9e3779b97f4a7c15) 2 (wrap 64 0x3423da0b87484307)
  = wrap 64 (0x3423da0b87484307 + Z.of_nat 2 * 0x9e3779b97f4a7c15)
  /\ after (next_num 0x9e3779b97f4a7c15) 7 (wrap 64 0x3423da0b87484307)
     = wrap 64 (0x3423da0b87484307 + Z.of_nat 7 * 0x9e3779b97f4a7c15)
  /\ after (next_num 0x9e3779b97f4a7c15) 2 (wrap 64 0x3423da0b87484307)
     <> after (next_num 0x9e3779b97f4a7c15) 7 (wrap 64 0x3423da0b87484307).
Proof.
  apply (next_num_never_repeats
           0x9e3779b97f4a7c15 0x3423da0b87484307 2 7);
    [reflexivity | lia | lia].
Defined.

(** Adding a number between [2^32] and [2^64 - 2^32] modulo [2^64] changes
    the top 32 bits. *)
Lemma top_word_changes (s inc : Z) :
  0 <= s < 2 ^ 64 -> 2 ^ 32 <= inc <= 2 ^ 64 - 2 ^ 32 ->
  wrap 64 (s + inc) / 2 ^ 32 <> s / 2 ^ 32.
Proof.
  intros Hs Hinc. unfold wrap.
  pose proof (Z.div_mod (s + inc) (2 ^ 64) ltac:(lia)) as H1.
  pose proof (Z.mod_pos_bound (s + inc) (2 ^ 64) ltac:(lia)) as H2.
  pose proof (Z.div_mod s (2 ^ 32) ltac:(lia)) as H3.
  pose proof (Z.mod_pos_bound s (2 ^ 32) ltac:(lia)) as H4.
  pose proof (Z.div_mod ((s + inc) mod 2 ^ 64) (2 ^ 32) ltac:(lia)) as H5.
  pose proof (Z.mod_pos_bound ((s + inc) mod 2 ^ 64) (2 ^ 32) ltac:(lia))
    as H6.
  intros Heq. rewrite Heq in H5.
  assert ((s + inc) / 2 ^ 64 = 0 \/ (s + inc) / 2 ^ 64 = 1) by lia.
  lia.
Qed.

(** X13.  The closing term does what the comment in the source says: an
    input and the same input with a zero appended never hash to the same
    first word, in either instance of the hash. *)
Theorem hash_tells_trailing_zero (us : list Z) (len : nat) :
  nth 0 (hash_implA (us ++ [0]) (S len)) 0 <> nth 0 (hash_implA us (S len)) 0
  /\ nth 0 (hash_implB (us ++ [0]) (S len)) 0
     <> nth 0 (hash_implB us (S len)) 0.
Proof.
  assert (H : forall INIT,
             nth 0 (hash_impl_t 0x9e3779b97f4a7c15 INIT (us ++ [0]) (S len)) 0
             <> nth 0 (hash_impl_t 0x9e3779b97f4a7c15 INIT us (S len)) 0).
  { intros INIT. rewrite !hash_first_slot.
    rewrite map_app, weighted_sum_app, length_app, length_map.
    cbn [map weighted_sum length].
    change (wrap 32 0) with 0. rewrite Z.mul_0_r, !Z.add_0_r.
    set (INC := 0x9e3779b97f4a7c15).
    set (n := Z.of_nat (length us)).
    set (ws := weighted_sum INC INIT 2 (map (wrap 32) us)).
    replace (Z.of_nat (length us + 1)) with (n + 1) by (unfold n; lia).
    set (s := wrap 64 (accumulator INC INIT 1 + ws
                       + accumulator INC INIT (n + 2))).
    replace (wrap 64 (accumulator INC INIT 1 + ws
                      + accumulator INC INIT (n + 1 + 2)))
      with (wrap 64 (s + INC)).
    - apply top_word_changes; [apply wrap_range; lia | unfold INC; lia].
    - unfold s. rewrite wrap_add_l.
      set (a1 := accumulator INC INIT 1). unfold accumulator.
      rewrite (wrap_add_r 64 (a1 + ws) (INIT + (n + 1 + 2) * INC)).
      replace (a1 + ws + wrap 64 (INIT + (n + 2) * INC) + INC)
        with (a1 + ws + INC + wrap 64 (INIT + (n + 2) * INC)) by ring.
      rewrite wrap_add_r. f_equal. ring. }
  split; apply H.
Qed.

(** ** The alias table: rounding, the empty vector, the entries *)

(** Beyond [2^63] the doubled value passes [2^63], wraps to 0 and stays
    there: no amount of fuel ends the loop. *)
Lemma RoundUp_loop_spins (x : Z) :
  2 ^ 63 < x ->
  forall fuel y k,
    (y = 0 \/ exists j, 1 <= j <= 63 /\ y = 2 ^ j) ->
    AliasTable.RoundUp_loop fuel x y k = OutOfFuel.
Proof.
  intros Hx. induction fuel as [|fuel IH]; intros y k Hy;
    rewrite RoundUp_loop_unfold.
  - destruct (Z.ltb_spec y x) as [_|Hge]; [reflexivity|].
    destruct Hy as [-> | (j & Hj & ->)]; [lia|].
    assert (2 ^ j <= 2 ^ 63) by (apply Z.pow_le_mono_r; lia). lia.
  - destruct (Z.ltb_spec y x) as [_|Hge].
    + apply IH. destruct Hy as [-> | (j & Hj & ->)]; [now left|].
      destruct (Z.eq_dec j 63) as [->|Hne]; [now left|].
      right. exists (j + 1). split; [lia|].
      rewrite Z.pow_add_r, Z.pow_1_r by lia. apply wrap_small.
      assert (2 ^ j <= 2 ^ 62) by (apply Z.pow_le_mono_r; lia). lia.
    + destruct Hy as [-> | (j & Hj & ->)]; [lia|].
      assert (2 ^ j <= 2 ^ 63) by (apply Z.pow_le_mono_r; lia). lia.
Qed.

(** X14.  [RoundUp] returns the least power of two from 2 on that is not
    below its argument, with the exponent, for every argument up to
    [2^63]; 0, 1 and 2 all give 2.  For a larger 64-bit argument the
    doubling wraps around to 0 and the loop never ends. *)
Theorem RoundUp_least_power_of_two (x : Z) :
  0 <= x < 2 ^ 64 ->
  (x <= 2 ^ 63 ->
   exists k,
     AliasTable.RoundUp x = Returns (2 ^ k, k)
     /\ 1 <= k <= 63 /\ x <= 2 ^ k /\ (k = 1 \/ 2 ^ (k - 1) < x))
  /\ (x <= 2 -> AliasTable.RoundUp x = Returns (2, 1))
  /\ (2 ^ 63 < x ->
      forall fuel, AliasTable.RoundUp_loop fuel x 2 1 = OutOfFuel).
Proof.
  intros Hx. split; [|split].
  - intros Hle. apply RoundUp_spec, Hle.
  - intros H2. unfold AliasTable.RoundUp. rewrite RoundUp_loop_unfold.
    destruct (Z.ltb_spec 2 x); [lia | reflexivity].
  - intros Hbig fuel. apply RoundUp_loop_spins; [exact Hbig|].
    right. exists 1. split; [lia | reflexivity].
Qed.

Lemma RoundUp_least_power_of_two_witness :
  (1000 <= 2 ^ 63 ->
   exists k,
     AliasTable.RoundUp 1000 = Returns (2 ^ k, k)
     /\ 1 <= k <= 63 /\ 1000 <= 2 ^ k /\ (k = 1 \/ 2 ^ (k - 1) < 1000))
  /\ (1000 <= 2 -> AliasTable.RoundUp 1000 = Returns (2, 1))
  /\ (2 ^ 63 < 1000 ->
      forall fuel, AliasTable.RoundUp_loop fuel 1000 2 1 = OutOfFuel).
Proof. apply (RoundUp_least_power_of_two 1000). lia. Defined.

(** What the resizing returns when it returns. *)
Lemma CreateInplace_resize_returns tbl (v : list AliasTable.double) tbl1 v1 sz :
  AliasTable.CreateInplace_resize tbl v = Returns (tbl1, v1, sz) ->
  exists k,
    1 <= k <= 32 /\ sz = 2 ^ k
    /\ tbl1 = AliasTable.mk (64 - k)
                (AliasTable.resize sz 0 (AliasTable.a_ tbl))
                (AliasTable.resize sz 0 (AliasTable.p_ tbl))
    /\ v1 = AliasTable.resize sz PrimFloat.zero v.
Proof.
  unfold AliasTable.CreateInplace_resize.
  destruct (Z.leb_spec (Z.of_nat (length v)) AliasTable.UINT32_MAX)
    as [Hle|_]; [|discriminate].
  unfold AliasTable.UINT32_MAX in Hle.
  destruct (RoundUp_spec (Z.of_nat (length v)) ltac:(lia))
    as (k & -> & Hk & Hx & Hmin).
  cbn [mbind outcome_bind]. intros [= <- <- <-].
  exists k. repeat split; try lia.
  destruct Hmin as [-> | Hmin]; [lia|].
  assert (k - 1 < 32); [|lia].
  apply (Z.pow_lt_mono_r_iff 2); lia.
Qed.

Lemma double_to_u32_range x : 0 <= AliasTable.double_to_u32 x < 2 ^ 32.
Proof.
  unfold AliasTable.double_to_u32.
  destruct (FloatOps.Prim2SF x); try lia.
  cbv zeta. destruct (_ && _); [apply wrap_range|]; lia.
Qed.

Section with_scale_entries.

Variables (sz : Z) (d : AliasTable.double).
Hypothesis sz_fits : sz <= 2 ^ 32.

Let alias_ok (a : list Z) : Prop := Forall (fun x => 0 <= x < sz) a.
Let threshold_ok (p : list Z) : Prop := Forall (fun x => 0 <= x < 2 ^ 32) p.

Lemma construct_entries fuel :
  forall v a p g m mm v' a' p' g' m' mm',
    0 <= g -> 0 <= m -> 0 <= mm -> alias_ok a -> threshold_ok p ->
    AliasTable.construct sz d fuel v a p g m mm
    = Returns (v', a', p', g', m', mm') ->
    alias_ok a' /\ threshold_ok p' /\ 0 <= g' /\ 0 <= m' /\ 0 <= mm'.
Proof.
  induction fuel as [|fuel IH];
    intros v a p g m mm v' a' p' g' m' mm' Hg Hm Hmm Ha Hp H;
    rewrite construct_unfold in H;
    destruct ((g <? sz) && (m <? sz)) eqn:Hguard; try discriminate;
    try (injection H as <- <- <- <- <- <-; auto).
  apply andb_true_iff in Hguard as [Hgs Hms].
  apply Z.ltb_lt in Hgs, Hms.
  destruct (negb _); [discriminate|]. cbv zeta in H.
  set (v1 := <[Z.to_nat g := _]> v) in H.
  pose proof (skip_while_ge sz (fun x => PrimFloat.ltb x d) v1
                (Z.to_nat (sz - g)) g) as Hg'.
  pose proof (skip_while_ge sz (fun x => PrimFloat.leb d x) v1
                (Z.to_nat (sz - mm)) mm) as Hm'.
  fold (AliasTable.next_large sz d v1 g) in Hg'.
  fold (AliasTable.next_small sz d v1 mm) in Hm'.
  assert (Ha1 : alias_ok (<[Z.to_nat m := wrap 32 g]> a)).
  { apply Forall_insert; [exact Ha|]. rewrite wrap_small; lia. }
  assert (Hp1 : forall x,
             threshold_ok (<[Z.to_nat m := AliasTable.double_to_u32 x]> p)).
  { intros x. apply Forall_insert; [exact Hp | apply double_to_u32_range]. }
  destruct (PrimFloat.leb _ _ || _);
    eapply IH in H; eauto; lia.
Qed.

Lemma fill_rest_entries skip v rounds :
  forall i a p,
    0 <= i -> alias_ok a -> threshold_ok p ->
    alias_ok (fst (AliasTable.fill_rest sz skip v rounds i a p))
    /\ threshold_ok (snd (AliasTable.fill_rest sz skip v rounds i a p)).
Proof.
  induction rounds as [|rounds IH]; intros i a p Hi Ha Hp;
    cbn [AliasTable.fill_rest]; [auto|].
  destruct (Z.ltb_spec i sz) as [His|_]; [|auto].
  destruct (skip _); [apply IH; auto; lia|]. cbv zeta.
  apply IH; [lia | |].
  - apply Forall_insert; [exact Ha|]. rewrite wrap_small; lia.
  - apply Forall_insert; [exact Hp|]. unfold AliasTable.UINT32_MAX. lia.
Qed.

(** Every alias that lines 485-538 write is an index of the table, and
    every threshold a 32-bit value. *)
Lemma CreateInplace_fill_entries v a p v' a' p' :
  alias_ok a -> threshold_ok p ->
  AliasTable.CreateInplace_fill sz d v a p = Returns (v', a', p') ->
  alias_ok a' /\ threshold_ok p'.
Proof.
  intros Ha Hp. unfold AliasTable.CreateInplace_fill. cbv zeta.
  set (g0 := AliasTable.next_large sz d v 0).
  set (m0 := AliasTable.next_small sz d v 0).
  pose proof (skip_while_ge sz (fun x => PrimFloat.ltb x d) v
                (Z.to_nat (sz - 0)) 0) as Hg0.
  pose proof (skip_while_ge sz (fun x => PrimFloat.leb d x) v
                (Z.to_nat (sz - 0)) 0) as Hm0.
  fold (AliasTable.next_large sz d v 0) in Hg0.
  fold (AliasTable.next_small sz d v 0) in Hm0.
  fold g0 in Hg0. fold m0 in Hm0.
  destruct (AliasTable.construct sz d (Z.to_nat (4 * sz + 4)) v a p g0 m0
              (m0 + 1)) as [[[[[[v1 a1] p1] g1] m1] mm1]| | |] eqn:Hrun;
    try discriminate.
  apply construct_entries in Hrun; try assumption; try lia.
  destruct Hrun as (Ha1 & Hp1 & Hg1 & Hm1 & Hmm1).
  cbn [mbind outcome_bind].
  set (ap1 := if g1 <? sz then _ else (a1, p1)).
  assert (H1 : alias_ok (fst ap1) /\ threshold_ok (snd ap1)).
  { unfold ap1. destruct (Z.ltb_spec g1 sz) as [Hgs|_]; [|auto].
    cbv zeta. apply fill_rest_entries; [lia | |].
    - apply Forall_insert; [exact Ha1|]. rewrite wrap_small; lia.
    - apply Forall_insert; [exact Hp1|]. unfold AliasTable.UINT32_MAX.
      lia. }
  destruct ap1 as [a2 p2]. cbn [fst snd] in H1. destruct H1 as [Ha2 Hp2].
  set (ap2 := if m1 <? sz then _ else (a2, p2)).
  assert (H2 : alias_ok (fst ap2) /\ threshold_ok (snd ap2)).
  { unfold ap2. destruct (Z.ltb_spec m1 sz) as [Hms|_]; [|auto].
    cbv zeta. apply fill_rest_entries; [lia | |].
    - apply Forall_insert; [exact Ha2|]. rewrite wrap_small; lia.
    - apply Forall_insert; [exact Hp2|]. unfold AliasTable.UINT32_MAX.
      lia. }
  destruct ap2 as [a3 p3]. cbn [fst snd] in H2.
  intros [= <- <- <-]. exact H2.
Qed.

End with_scale_entries.

(** X15.  On a table that was default-constructed, every alias that
    [CreateInplace] leaves in [a_] is an index of the table and every
    threshold in [p_] is at most [2^32 - 1]; the table has [2^k] slots
    for the [k] of its shift [64 - k], [k] from 1 to 32. *)
Theorem CreateInplace_entries_in_range
  (v : list AliasTable.double) (tbl' : AliasTable.t)
  (v' : list AliasTable.double) :
  AliasTable.CreateInplace AliasTable.empty v = Returns (tbl', v') ->
  Forall (fun alias => 0 <= alias < Z.of_nat (length (AliasTable.p_ tbl')))
    (AliasTable.a_ tbl')
  /\ Forall (fun threshold => 0 <= threshold <= AliasTable.UINT32_MAX)
       (AliasTable.p_ tbl')
  /\ length (AliasTable.a_ tbl') = length (AliasTable.p_ tbl')
  /\ 32 <= AliasTable.shr_ tbl' <= 63
  /\ Z.of_nat (length (AliasTable.p_ tbl')) = 2 ^ (64 - AliasTable.shr_ tbl').
Proof.
  intros Hrun. unfold AliasTable.CreateInplace in Hrun.
  destruct (AliasTable.CreateInplace_resize AliasTable.empty v)
    as [[[tbl1 v1] sz]| | |] eqn:Hresize; try discriminate.
  apply CreateInplace_resize_returns in Hresize.
  destruct Hresize as (k & Hk & -> & -> & ->).
  cbn [mbind outcome_bind AliasTable.a_ AliasTable.p_ AliasTable.shr_
         AliasTable.empty] in Hrun.
  set (d := PrimFloat.div _ _) in Hrun.
  set (sz := 2 ^ k) in *.
  assert (Hsz : 2 <= sz <= 2 ^ 32).
  { unfold sz. split.
    - change 2 with (2 ^ 1) at 1. apply Z.pow_le_mono_r; lia.
    - apply Z.pow_le_mono_r; lia. }
  assert (Hnil : forall x : Z,
             AliasTable.resize sz x [] = replicate (Z.to_nat sz) x).
  { intros x. unfold AliasTable.resize. cbn [length take app].
    rewrite take_nil. cbn [app]. f_equal. lia. }
  rewrite !Hnil in Hrun.
  destruct (AliasTable.CreateInplace_fill sz d
              (AliasTable.resize sz PrimFloat.zero v)
              (replicate (Z.to_nat sz) 0) (replicate (Z.to_nat sz) 0))
    as [[[v2 a2] p2]| | |] eqn:Hfill; try discriminate.
  cbn [mbind outcome_bind] in Hrun. injection Hrun as <- <-.
  cbn [AliasTable.a_ AliasTable.p_ AliasTable.shr_].
  destruct (CreateInplace_fill_ends sz d
              (AliasTable.resize sz PrimFloat.zero v)
              (replicate (Z.to_nat sz) 0) (replicate (Z.to_nat sz) 0)
              ltac:(lia))
    as [Hfail | (v3 & a3 & p3 & Hfill3 & _ & Hla & Hlp)]; [congruence|].
  rewrite Hfill in Hfill3. injection Hfill3 as <- <- <-.
  rewrite length_replicate in Hla, Hlp.
  apply CreateInplace_fill_entries in Hfill; [| lia | |].
  - destruct Hfill as [Ha Hp]. rewrite Hla, Hlp, Z2Nat.id by lia.
    repeat split; try lia.
    + exact Ha.
    + eapply Forall_impl; [exact Hp|]. cbn beta.
      unfold AliasTable.UINT32_MAX. intros x Hx. lia.
    + unfold sz. f_equal; lia.
  - apply Forall_replicate. lia.
  - apply Forall_replicate. lia.
Qed.

Lemma CreateInplace_entries_in_range_witness :
  Forall (fun alias => 0 <= alias < Z.of_nat (length [4294967295; 2147483648]))
    [0; 0]
  /\ Forall (fun threshold => 0 <= threshold <= AliasTable.UINT32_MAX)
       [4294967295; 2147483648]
  /\ length [0; 0] = length [4294967295; 2147483648]
  /\ 32 <= 63 <= 63
  /\ Z.of_nat (length [4294967295; 2147483648]) = 2 ^ (64 - 63).
Proof.
  apply (CreateInplace_entries_in_range [3; 1]%float
           (AliasTable.mk 63 [0; 0] [4294967295; 2147483648])
           [2; 1]%float).
  vm_compute. reflexivity.
Defined.

(** X16.  An empty weight vector is not refused.  Whatever the table held
    before, [CreateInplace] pads the vector to two zero weights and
    leaves the two-slot table in which each slot keeps its own index,
    with the shift 63. *)
Theorem CreateInplace_empty_vector (tbl : AliasTable.t) :
  AliasTable.CreateInplace tbl []
  = Returns (AliasTable.mk 63 [0; 1] [4294967295; 4294967295],
             [0; 0]%float)
  /\ AliasTable.Create tbl []
     = Returns (AliasTable.mk 63 [0; 1] [4294967295; 4294967295]).
Proof.
  assert (Hrun : AliasTable.CreateInplace tbl []
                 = Returns (AliasTable.mk 63 [0; 1] [4294967295; 4294967295],
                            [0; 0]%float)).
  { unfold AliasTable.CreateInplace.
    assert (Hresize : AliasTable.CreateInplace_resize tbl []
                      = Returns
                          (AliasTable.mk 63
                             (AliasTable.resize 2 0 (AliasTable.a_ tbl))
                             (AliasTable.resize 2 0 (AliasTable.p_ tbl)),
                           [0; 0]%float, 2)) by reflexivity.
    rewrite Hresize. cbn [mbind outcome_bind AliasTable.a_ AliasTable.p_
                            AliasTable.shr_].
    assert (Hfill : forall a0 a1 p0 p1,
               AliasTable.CreateInplace_fill 2
                 (PrimFloat.div
                    (fold_left PrimFloat.add [0; 0]%float PrimFloat.zero)
                    (AliasTable.double_of_size 2))
                 [0; 0]%float [a0; a1] [p0; p1]
               = Returns ([0; 0]%float, [0; 1], [4294967295; 4294967295]))
      by (intros; vm_compute; reflexivity).
    assert (Htwo : forall l : list Z,
               exists x y, AliasTable.resize 2 0 l = [x; y]).
    { intros [|x [|y l]]; cbn; eauto. }
    destruct (Htwo (AliasTable.a_ tbl)) as (a0 & a1 & ->).
    destruct (Htwo (AliasTable.p_ tbl)) as (p0 & p1 & ->).
    rewrite Hfill. reflexivity. }
  split; [exact Hrun|]. unfold AliasTable.Create. now rewrite Hrun.
Qed.

(** X17.  A query on a table that [CreateInplace] has built from 1 to
    [2^32 - 1] weights on a default-constructed table reads inside [a_]
    and [p_] for every draw: it returns a value, which is 0 or the alias
    of slot 0 converted to [int]; with at most [2^31] slots the value is
    an index of the table. *)
Theorem Get_stays_in_bounds
  (v : list AliasTable.double) (tbl' : AliasTable.t)
  (v' : list AliasTable.double) (u : Z) :
  1 <= Z.of_nat (length v) <= 2 ^ 32 - 1 ->
  AliasTable.CreateInplace AliasTable.empty v = Returns (tbl', v') ->
  exists r alias,
    AliasTable.Get tbl' u = Some r
    /\ AliasTable.a_ tbl' !! O = Some alias
    /\ (r = 0 \/ r = to_int32 alias)
    /\ (Z.of_nat (length (AliasTable.p_ tbl')) <= 2 ^ 31 ->
        0 <= r < Z.of_nat (length (AliasTable.p_ tbl'))).
Proof.
  intros Hn Hrun.
  destruct (Get_reads_first_slot _ _ _ _ u Hn Hrun)
    as (threshold & alias & Hp0 & Ha0 & Hget).
  destruct (CreateInplace_shift _ _ _ _ Hn Hrun) as (Hs & Hlen & _).
  assert (Halias : 0 <= alias < Z.of_nat (length (AliasTable.p_ tbl'))).
  { unfold AliasTable.CreateInplace in Hrun.
    destruct (AliasTable.CreateInplace_resize AliasTable.empty v)
      as [[[tbl1 v1] sz]| | |] eqn:Hresize; try discriminate.
    apply CreateInplace_resize_returns in Hresize.
    destruct Hresize as (k & Hk & -> & -> & ->).
    cbn [mbind outcome_bind AliasTable.a_ AliasTable.p_ AliasTable.shr_
           AliasTable.empty] in Hrun.
    set (d := PrimFloat.div _ _) in Hrun.
    assert (Hsz : 2 <= 2 ^ k <= 2 ^ 32).
    { split.
      - change 2 with (2 ^ 1) at 1. apply Z.pow_le_mono_r; lia.
      - apply Z.pow_le_mono_r; lia. }
    destruct (AliasTable.CreateInplace_fill (2 ^ k) d _ _ _)
      as [[[v2 a2] p2]| | |] eqn:Hfill; try discriminate.
    cbn [mbind outcome_bind] in Hrun. injection Hrun as <- <-.
    cbn [AliasTable.a_ AliasTable.p_ AliasTable.shr_] in *.
    replace (64 - (64 - k)) with k in Hlen by lia. rewrite Hlen.
    apply CreateInplace_fill_entries in Hfill; [| lia | |].
    - destruct Hfill as [Ha _].
      rewrite Forall_lookup in Ha. apply (Ha O alias Ha0).
    - unfold AliasTable.resize. cbn [length]. rewrite take_nil.
      apply Forall_replicate. lia.
    - unfold AliasTable.resize. cbn [length]. rewrite take_nil.
      apply Forall_replicate. lia. }
  assert (Hint : Z.of_nat (length (AliasTable.p_ tbl')) <= 2 ^ 31 ->
                 to_int32 alias = alias).
  { intros Hsmall. unfold to_int32. rewrite wrap_small by lia.
    destruct (Z.ltb_spec alias (2 ^ 31)); lia. }
  rewrite Hget.
  destruct (wrap 64 u / 2 ^ AliasTable.shr_ tbl' <? threshold).
  - exists 0, alias. split; [reflexivity|]. split; [exact Ha0|].
    split; [now left | lia].
  - exists (to_int32 alias), alias. split; [reflexivity|].
    split; [exact Ha0|]. split; [now right|].
    intros Hsmall. rewrite Hint by exact Hsmall. exact Halias.
Qed.

Lemma Get_stays_in_bounds_witness :
  exists r alias,
    AliasTable.Get (AliasTable.mk 63 [0; 0] [4294967295; 2147483648])
      (2 ^ 63 + 5) = Some r
    /\ [0; 0] !! O = Some alias
    /\ (r = 0 \/ r = to_int32 alias)
    /\ (Z.of_nat (length [4294967295; 2147483648]) <= 2 ^ 31 ->
        0 <= r < Z.of_nat (length [4294967295; 2147483648])).
Proof.
  apply (Get_stays_in_bounds [3; 1]%float
           (AliasTable.mk 63 [0; 0] [4294967295; 2147483648])
           [2; 1]%float (2 ^ 63 + 5)).
  - cbn [length]. lia.
  - vm_compute. reflexivity.
Defined.

(** ** [details::fnv] *)

Lemma fnv_range (pos : list Z) : forall hash, 0 <= details.fnv hash pos < 2 ^ 32.
Proof.
  induction pos as [|c pos IH]; intros hash; cbn [details.fnv].
  - apply wrap_range. lia.
  - destruct (c =? 0); [apply wrap_range; lia | apply IH].
Qed.

Lemma fnv_wrap (pos : list Z) hash :
  details.fnv (wrap 32 hash) pos = details.fnv hash pos.
Proof.
  destruct pos as [|c pos]; cbn [details.fnv]; now rewrite wrap_idem by lia.
Qed.

(** X18.  [fnv] folds the characters up to the first 0 into a 32-bit
    hash: the result is below [2^32]; hashing a string without a 0 and
    then going on with a second string is hashing them joined; what
    follows the first 0 is never read; and the empty string returns the
    start value. *)
Theorem fnv_folds_up_to_terminator (hash : Z) (s1 s2 : list Z) :
  Forall (fun c => c <> 0) s1 ->
  0 <= details.fnv hash (s1 ++ s2) < 2 ^ 32
  /\ details.fnv hash (s1 ++ s2) = details.fnv (details.fnv hash s1) s2
  /\ details.fnv hash (s1 ++ 0 :: s2) = details.fnv hash s1
  /\ details.fnv hash [] = wrap 32 hash.
Proof.
  intros Hs1. split; [apply fnv_range|]. split; [|split; [|reflexivity]].
  - revert hash. induction Hs1 as [|c s1 Hc _ IH]; intros hash.
    + cbn [app details.fnv]. now rewrite fnv_wrap.
    + cbn [app details.fnv]. destruct (Z.eqb_spec c 0); [contradiction|].
      apply IH.
  - revert hash. induction Hs1 as [|c s1 Hc _ IH]; intros hash.
    + reflexivity.
    + cbn [app details.fnv]. destruct (Z.eqb_spec c 0); [contradiction|].
      apply IH.
Qed.

Lemma fnv_folds_up_to_terminator_witness :
  0 <= details.fnv 2166136261 ([74; 97] ++ [110]) < 2 ^ 32
  /\ details.fnv 2166136261 ([74; 97] ++ [110])
     = details.fnv (details.fnv 2166136261 [74; 97]) [110]
  /\ details.fnv 2166136261 ([74; 97] ++ 0 :: [110])
     = details.fnv 2166136261 [74; 97]
  /\ details.fnv 2166136261 [] = wrap 32 2166136261.
Proof.
  apply (fnv_folds_up_to_terminator 2166136261 [74; 97] [110]).
  repeat constructor; discriminate.
Defined.

(** A run: two characters from the offset basis. *)
Example fnv_run : details.fnv 2166136261 [74; 97] = 1198976174.
Proof. vm_compute. reflexivity. Qed.
